(** * The serializer write path: [perform_write], [do_writes],
      [write_cond_t] and [serializer_block_write]

    A shallow embedding of [src/serializer/serializer.cc].  The C++ code
    runs on a cooperatively scheduled coroutine, talks to a serializer
    through virtual methods and synchronises with the physical layer
    through [cond_t] objects.  The embedding keeps that shape:

    - every effect of the code (allocating a [write_cond_t], calling
      [block_writes], invoking a callback, pulsing, waiting, deleting,
      calling [index_write]) is a step in a state-and-error monad over an
      explicit [world], and leaves an [event] in the world's trace;
    - the virtual methods of [serializer_t] are a type class;
    - the physical layer completes in-flight writes only while the
      coroutine is suspended in [cond_t::wait], in an order chosen by a
      schedule carried by the world; the writes in flight may belong to
      other coroutines as well, and the coroutine resumes as soon as the
      handle it waits for is signaled. *)

From stdpp Require Import base numbers option list sets.

Set Default Proof Using "Type".
Open Scope Z_scope.

(** ** Plain data *)

(** [block_id_t], an unsigned integer type of the headers. *)
Definition block_id_t := N.

(** Modelled from the spec: [repli_timestamp_t] is declared outside
    [serializer.cc]; a recency is a timestamp and one sentinel value of the
    type ([repli_timestamp_t::invalid]) marks "no data".  The sentinel is a
    parameter of the development. *)
Record repli_timestamp_t := { time : N }.

(** Modelled from the spec: [standard_block_token_t] is declared outside
    [serializer.cc]; a token is a handle [{ physical_location, size }]. *)
Record standard_block_token_t := { tok_offset : Z; tok_size : Z }.

(** Modelled from the spec: [counted_t<T>] is declared outside
    [serializer.cc]; it is a shared, reference-counted handle that may be
    null.  Only nullness is observable in the write path. *)
Definition counted_t (T : Type) := option T.
Definition counted_null {T} : counted_t T := None.

(** Opaque caller-owned objects, named by an address; a C++ null pointer
    is [None]. *)
Definition iocallback_t := N.
Definition serializer_write_launched_callback_t := N.
Definition file_account_t := N.
(** [const void *buf] and [ser_buffer_t *]: addresses. *)
Definition buf_ptr := Z.
(** Address of a [cond_t]-derived object in the heap of the [world]. *)
Abbreviation cond_ptr := nat (only parsing).

#[global] Instance repli_timestamp_eq_dec : EqDecision repli_timestamp_t.
Proof. solve_decision. Defined.
#[global] Instance standard_block_token_eq_dec : EqDecision standard_block_token_t.
Proof. solve_decision. Defined.

(** ** Write descriptors ([serializer_write_t]) *)

(** The struct carries [block_id], the tag [action_type] and a union
    [action]; tag and union together are one inductive type. *)
Inductive action_t :=
| UPDATE (buf : buf_ptr) (recency : repli_timestamp_t)
         (io_callback : option iocallback_t)
         (launch_callback : option serializer_write_launched_callback_t)
| DELETE
| TOUCH (recency : repli_timestamp_t).

Record serializer_write_t := {
  block_id : block_id_t;
  action : action_t;
}.

Definition make_touch (block_id : block_id_t) (recency : repli_timestamp_t)
  : serializer_write_t :=
  {| block_id := block_id; action := TOUCH recency |}.

Definition make_update (block_id : block_id_t) (recency : repli_timestamp_t)
    (buf : buf_ptr) (io_callback : option iocallback_t)
    (launch_callback : option serializer_write_launched_callback_t)
  : serializer_write_t :=
  {| block_id := block_id;
     action := UPDATE buf recency io_callback launch_callback |}.

Definition make_delete (block_id : block_id_t) : serializer_write_t :=
  {| block_id := block_id; action := DELETE |}.

Definition is_update (w : serializer_write_t) : bool :=
  match action w with UPDATE _ _ _ _ => true | _ => false end.

(** ** Index updates ([index_write_op_t]) *)

(** Modelled from the spec: [index_write_op_t] is declared outside
    [serializer.cc].  An Index Update is [{ block_id, token (possibly
    null), recency }]; [index_write_op_t op(block_id)] builds one whose
    token and recency are not assigned yet, and a TOUCH carries "only the
    updated recency".  A field that was never assigned is [None]; an
    assigned token is [Some t] with [t] possibly null. *)
Record index_write_op_t := {
  op_block_id : block_id_t;
  op_token : option (counted_t standard_block_token_t);
  op_recency : option repli_timestamp_t;
}.

Definition index_write_op_init (block_id : block_id_t) : index_write_op_t :=
  {| op_block_id := block_id; op_token := None; op_recency := None |}.

Definition set_token (t : counted_t standard_block_token_t)
    (op : index_write_op_t) : index_write_op_t :=
  {| op_block_id := op_block_id op; op_token := Some t;
     op_recency := op_recency op |}.

Definition set_recency (r : repli_timestamp_t)
    (op : index_write_op_t) : index_write_op_t :=
  {| op_block_id := op_block_id op; op_token := op_token op;
     op_recency := Some r |}.

(** [buf_write_info_t(buf, block_size, block_id)]. *)
Record buf_write_info_t := {
  bwi_buf : buf_ptr;
  bwi_block_size : Z;
  bwi_block_id : block_id_t;
}.

(** ** Completion handles *)

(** The two classes of [serializer.cc] that derive from both [cond_t] and
    [iocallback_t]: [write_cond_t], which wraps a caller-supplied callback,
    and the anonymous struct local to [serializer_block_write]. *)
Inductive cond_class :=
| write_cond_t (callback : option iocallback_t)
| local_cond_t.

Record cond_obj := {
  cls : cond_class;
  pulsed : bool;
  live : bool;
}.

(** ** Events *)

Inductive event :=
| EvNew (c : cond_ptr) (k : cond_class)
| EvBlockWrites (infos : list buf_write_info_t) (acct : file_account_t)
                (sink : cond_ptr)
                (tokens : list (counted_t standard_block_token_t))
| EvWriteLaunched (cb : serializer_write_launched_callback_t)
                  (tok : counted_t standard_block_token_t)
| EvIoCallback (cb : iocallback_t)
| EvPulse (c : cond_ptr)
| EvWait (c : cond_ptr)
| EvDelete (c : cond_ptr)
| EvIndexWrite (ops : list index_write_op_t) (acct : file_account_t).

(** ** The serializer interface *)

(** The virtual methods of [serializer_t] that the write path calls.  The
    physical layer has a state of its own, [phys]; [block_writes] returns
    the vector of tokens it issues and [index_write] applies a list of
    updates. *)
Class serializer_t (phys : Type) := {
  get_block_size : Z;
  ser_block_writes :
    phys -> list buf_write_info_t -> file_account_t ->
    phys * list (counted_t standard_block_token_t);
  ser_index_write :
    phys -> list index_write_op_t -> file_account_t -> phys;
}.

(** Two constants of the headers: [repli_timestamp_t::invalid], and
    [sizeof(ser_buffer_t)], the size of the header that sits just before a
    buffer. *)
Class constants := {
  repli_timestamp_invalid : repli_timestamp_t;
  sizeof_ser_buffer_t : Z;
}.

Section Serializer.
Context {phys : Type} {ser : serializer_t phys} {consts : constants}.

(** *** The world and the monad *)

Record world := {
  phys_state : phys;
  heap : list cond_obj;
  inflight : list cond_ptr;
  sched : list nat;
  trace : list event;
}.

(** A call either returns, or the process aborts ([guarantee], a failed
    assertion, a dangling pointer), or the coroutine waits forever. *)
Inductive outcome (A : Type) :=
| Done (a : A) (w : world)
| Crash
| Stuck.
Arguments Done {A} a w.
Arguments Crash {A}.
Arguments Stuck {A}.

Definition M (A : Type) := world -> outcome A.

Definition ret {A} (a : A) : M A := fun w => Done a w.
Definition bind {A B} (m : M A) (k : A -> M B) : M B :=
  fun w => match m w with
           | Done a w' => k a w'
           | Crash => Crash
           | Stuck => Stuck
           end.
Definition crash {A} : M A := fun _ => Crash.

Notation "x <- m ;; k" := (bind m (fun x => k))
  (at level 100, m at next level, right associativity).
Notation "m ;;; k" := (bind m (fun _ => k))
  (at level 100, right associativity).

(** State updates, one per field that the code or the physical layer
    changes. *)
Definition with_heap (h : list cond_obj) (w : world) : world :=
  {| phys_state := phys_state w; heap := h; inflight := inflight w;
     sched := sched w; trace := trace w |}.
Definition with_phys (p : phys) (w : world) : world :=
  {| phys_state := p; heap := heap w; inflight := inflight w;
     sched := sched w; trace := trace w |}.
Definition with_inflight (l : list cond_ptr) (w : world) : world :=
  {| phys_state := phys_state w; heap := heap w; inflight := l;
     sched := sched w; trace := trace w |}.
Definition with_sched (s : list nat) (w : world) : world :=
  {| phys_state := phys_state w; heap := heap w; inflight := inflight w;
     sched := s; trace := trace w |}.
Definition emit (e : event) (w : world) : world :=
  {| phys_state := phys_state w; heap := heap w; inflight := inflight w;
     sched := sched w; trace := trace w ++ [e] |}.

Definition get : M world := fun w => Done w w.
Definition modify (f : world -> world) : M unit := fun w => Done tt (f w).
Definition log (e : event) : M unit := modify (emit e).

Definition guarantee (b : bool) : M unit :=
  if b then ret tt else crash.

(** *** [cond_t] and the physical layer *)

Definition deref (c : cond_ptr) : M cond_obj := fun w =>
  match heap w !! c with
  | Some o => if live o then Done o w else Crash
  | None => Crash
  end.

(** Constructing an object of class [k]: a fresh address, not pulsed. *)
Definition new_cond (k : cond_class) : M cond_ptr :=
  w <- get ;;
  let c := length (heap w) in
  modify (with_heap
            (heap w ++ [{| cls := k; pulsed := false; live := true |}])) ;;;
  log (EvNew c k) ;;;
  ret c.

(** [delete c], or the end of the scope of a local object. *)
Definition delete_cond (c : cond_ptr) : M unit :=
  o <- deref c ;;
  w <- get ;;
  modify (with_heap
            (<[c := {| cls := cls o; pulsed := pulsed o; live := false |}]>
               (heap w))) ;;;
  log (EvDelete c).

(** Modelled from the spec: [cond_t::pulse] is declared outside
    [serializer.cc].  A handle is signaled exactly once; signaling a
    signaled handle is a fatal contract violation. *)
Definition pulse (c : cond_ptr) : M unit :=
  o <- deref c ;;
  guarantee (negb (pulsed o)) ;;;
  w <- get ;;
  modify (with_heap
            (<[c := {| cls := cls o; pulsed := true; live := live o |}]>
               (heap w))) ;;;
  log (EvPulse c).

(** The caller-supplied [iocallback_t::on_io_complete]: opaque. *)
Definition iocallback_on_io_complete (cb : iocallback_t) : M unit :=
  log (EvIoCallback cb).

(** The caller-supplied [on_write_launched]: opaque. *)
Definition on_write_launched (cb : serializer_write_launched_callback_t)
    (tok : counted_t standard_block_token_t) : M unit :=
  log (EvWriteLaunched cb tok).

(** [write_cond_t::on_io_complete]. *)
Definition write_cond_on_io_complete (this : cond_ptr)
    (callback : option iocallback_t) : M unit :=
  (match callback with
   | Some cb => iocallback_on_io_complete cb
   | None => ret tt
   end) ;;;
  pulse this.

(** [on_io_complete] of the anonymous struct of
    [serializer_block_write]. *)
Definition local_cond_on_io_complete (this : cond_ptr) : M unit :=
  pulse this.

(** The virtual call [sink->on_io_complete()]. *)
Definition on_io_complete (sink : cond_ptr) : M unit :=
  o <- deref sink ;;
  match cls o with
  | write_cond_t callback => write_cond_on_io_complete sink callback
  | local_cond_t => local_cond_on_io_complete sink
  end.

(** Modelled from the spec: the physical layer invokes the completion
    sink of a submitted write exactly once, asynchronously.  One step of
    the physical layer takes an in-flight sink, chosen by the schedule,
    out of flight and calls its [on_io_complete]. *)
Definition deliver_one : M unit :=
  w <- get ;;
  let i := (hd 0%nat (sched w) mod length (inflight w))%nat in
  match inflight w !! i with
  | None => fun _ => Stuck
  | Some c =>
      modify (with_inflight (delete i (inflight w))) ;;;
      modify (with_sched (tl (sched w))) ;;;
      on_io_complete c
  end.

Fixpoint wait_loop (fuel : nat) (c : cond_ptr) : M unit :=
  o <- deref c ;;
  if pulsed o then ret tt
  else match fuel with
       | O => fun _ => Stuck
       | S fuel' => deliver_one ;;; wait_loop fuel' c
       end.

(** Modelled from the spec: [cond_t::wait] is declared outside
    [serializer.cc].  It returns at once on a signaled handle and
    otherwise suspends the coroutine until the handle is signaled;
    meanwhile the physical layer completes in-flight writes.  Each step
    takes one sink out of flight, so their number bounds the loop. *)
Definition wait (c : cond_ptr) : M unit :=
  w <- get ;;
  wait_loop (length (inflight w)) c ;;;
  log (EvWait c).

(** Modelled from the spec: [ser->block_writes(write_infos, acct, cb)]
    is a virtual method, implemented outside [serializer.cc].  The
    physical layer accepts the writes, returns the tokens it issues and
    keeps [cb] as the completion sink, which it will invoke exactly once,
    later. *)
Definition block_writes (write_infos : list buf_write_info_t)
    (acct : file_account_t) (cb : cond_ptr)
  : M (list (counted_t standard_block_token_t)) :=
  w <- get ;;
  let r := ser_block_writes (phys_state w) write_infos acct in
  modify (with_phys (fst r)) ;;;
  modify (with_inflight (inflight w ++ [cb])) ;;;
  log (EvBlockWrites write_infos acct cb (snd r)) ;;;
  ret (snd r).

(** Modelled from the spec: [ser->index_write(ops, acct)] is a virtual
    method, implemented outside [serializer.cc].  The index applies the
    whole list as one operation. *)
Definition index_write (ops : list index_write_op_t)
    (acct : file_account_t) : M unit :=
  w <- get ;;
  modify (with_phys (ser_index_write (phys_state w) ops acct)) ;;;
  log (EvIndexWrite ops acct).

(** [ser->assert_thread()]: the calling thread is not part of the
    world; the assertion holds. *)
Definition assert_thread : M unit := ret tt.

(** *** The code of [serializer.cc] *)

(** [static_cast<ser_buffer_t *>(const_cast<void *>(buf)) - 1]. *)
Definition convert_buffer_cache_buf_to_ser_buffer (buf : buf_ptr) : buf_ptr :=
  buf - 1 * sizeof_ser_buffer_t.

(** [perform_write].  The vector behind [conds] and the object behind
    [op] are local to [do_writes]; the function returns their new
    values.  The [default: unreachable()] branch has no counterpart:
    [action_t] is closed. *)
Definition perform_write (write : serializer_write_t)
    (acct : file_account_t) (conds : list cond_ptr) (op : index_write_op_t)
  : M (list cond_ptr * index_write_op_t) :=
  match action write with
  | UPDATE buf recency io_callback launch_callback =>
      c <- new_cond (write_cond_t io_callback) ;;
      let conds := conds ++ [c] in
      let write_infos :=
        [] ++ [{| bwi_buf := convert_buffer_cache_buf_to_ser_buffer buf;
                  bwi_block_size := get_block_size;
                  bwi_block_id := op_block_id op |}] in
      tokens <- block_writes write_infos acct (List.last conds c) ;;
      guarantee (length tokens =? 1)%nat ;;;
      let op := set_token (default counted_null (tokens !! 0%nat)) op in
      (match launch_callback with
       | Some cb => on_write_launched cb (default counted_null (op_token op))
       | None => ret tt
       end) ;;;
      let op := set_recency recency op in
      ret (conds, op)
  | DELETE =>
      let op := set_token counted_null op in
      let op := set_recency repli_timestamp_invalid op in
      ret (conds, op)
  | TOUCH recency =>
      let op := set_recency recency op in
      ret (conds, op)
  end.

(** Step 1 of [do_writes]: the loop over [writes], from index [0]
    upwards. *)
Fixpoint dispatch_loop (writes : list serializer_write_t)
    (acct : file_account_t)
    (block_write_conds : list cond_ptr)
    (index_write_ops : list index_write_op_t)
  : M (list cond_ptr * list index_write_op_t) :=
  match writes with
  | [] => ret (block_write_conds, index_write_ops)
  | write :: rest =>
      let op := index_write_op_init (block_id write) in
      r <- perform_write write acct block_write_conds op ;;
      dispatch_loop rest acct (fst r) (index_write_ops ++ [snd r])
  end.

(** Step 2 of [do_writes]: the loop over [block_write_conds]. *)
Fixpoint wait_all (block_write_conds : list cond_ptr) : M unit :=
  match block_write_conds with
  | [] => ret tt
  | c :: rest => wait c ;;; delete_cond c ;;; wait_all rest
  end.

(** [do_writes]. *)
Definition do_writes (writes : list serializer_write_t)
    (io_account : file_account_t) : M unit :=
  assert_thread ;;;
  r <- dispatch_loop writes io_account [] [] ;;
  wait_all (fst r) ;;;
  index_write (snd r) io_account.

(** [serializer_block_write].  The local object [cb] lives until the
    function returns. *)
Definition serializer_block_write (buf : buf_ptr) (block_id : block_id_t)
    (io_account : file_account_t)
  : M (counted_t standard_block_token_t) :=
  cb <- new_cond local_cond_t ;;
  let ser_buf := convert_buffer_cache_buf_to_ser_buffer buf in
  tokens <- block_writes
              [{| bwi_buf := ser_buf; bwi_block_size := get_block_size;
                  bwi_block_id := block_id |}] io_account cb ;;
  guarantee (length tokens =? 1)%nat ;;;
  wait cb ;;;
  delete_cond cb ;;;
  ret (default counted_null (tokens !! 0%nat)).

(** *** Vocabulary of the properties *)

(** The assumption on the physical layer: one token per submitted
    write. *)
Definition one_token_per_write : Prop :=
  forall p infos acct,
    length (snd (ser_block_writes p infos acct)) = length infos.

(** Every sink in flight is an object that is alive and not signaled
    yet, and is in flight once. *)
Definition wf_world (w : world) : Prop :=
  NoDup (inflight w) /\
  forall c, c ∈ inflight w ->
    exists o, heap w !! c = Some o /\ pulsed o = false /\ live o = true.

(** Events of the dispatch phase, of a physical completion, and of the
    barrier phase (completions, and returns from [wait] and [delete]). *)
Definition is_dispatch_event (e : event) : bool :=
  match e with
  | EvNew _ _ | EvBlockWrites _ _ _ _ | EvWriteLaunched _ _ => true
  | _ => false
  end.
Definition is_completion_event (e : event) : bool :=
  match e with
  | EvIoCallback _ | EvPulse _ => true
  | _ => false
  end.
Definition is_barrier_event (e : event) : bool :=
  match e with
  | EvIoCallback _ | EvPulse _ | EvWait _ | EvDelete _ => true
  | _ => false
  end.

(** Projections of a trace. *)
Definition news_of (tr : list event) : list cond_ptr :=
  omap (fun e => match e with EvNew c _ => Some c | _ => None end) tr.
Definition pulses_of (tr : list event) : list cond_ptr :=
  omap (fun e => match e with EvPulse c => Some c | _ => None end) tr.
Definition waits_of (tr : list event) : list cond_ptr :=
  omap (fun e => match e with EvWait c => Some c | _ => None end) tr.
Definition deletes_of (tr : list event) : list cond_ptr :=
  omap (fun e => match e with EvDelete c => Some c | _ => None end) tr.
Definition launches_of (tr : list event)
  : list (serializer_write_launched_callback_t *
          counted_t standard_block_token_t) :=
  omap (fun e => match e with
                 | EvWriteLaunched cb t => Some (cb, t)
                 | _ => None
                 end) tr.
Definition block_writes_of (tr : list event)
  : list (list buf_write_info_t * cond_ptr *
          list (counted_t standard_block_token_t)) :=
  omap (fun e => match e with
                 | EvBlockWrites infos _ sink toks => Some (infos, sink, toks)
                 | _ => None
                 end) tr.
Definition commits_of (tr : list event) : list (list index_write_op_t) :=
  omap (fun e => match e with
                 | EvIndexWrite ops _ => Some ops
                 | _ => None
                 end) tr.

(** What a batch asks for. *)
Definition launch_callback_of (write : serializer_write_t)
  : option serializer_write_launched_callback_t :=
  match action write with
  | UPDATE _ _ _ launch_callback => launch_callback
  | _ => None
  end.
Definition update_block_of (write : serializer_write_t)
  : option (buf_ptr * block_id_t) :=
  match action write with
  | UPDATE buf _ _ _ => Some (buf, block_id write)
  | _ => None
  end.

(** The one-element vector that [perform_write] and
    [serializer_block_write] hand to [block_writes]. *)
Definition write_info (buf : buf_ptr) (id : block_id_t) : buf_write_info_t :=
  {| bwi_buf := convert_buffer_cache_buf_to_ser_buffer buf;
     bwi_block_size := get_block_size;
     bwi_block_id := id |}.

Definition launch_events
    (launch_callback : option serializer_write_launched_callback_t)
    (t : counted_t standard_block_token_t) : list event :=
  match launch_callback with
  | Some cb => [EvWriteLaunched cb t]
  | None => []
  end.

Definition fresh_cond (k : cond_class) : cond_obj :=
  {| cls := k; pulsed := false; live := true |}.

(** The dispatch phase, declaratively: [dispatched acct h writes ops D
    objs] relates a batch to the index updates, the events and the
    handles that dispatching gives when the next free address is [h]. *)
Inductive dispatched (acct : file_account_t)
  : nat -> list serializer_write_t -> list index_write_op_t ->
    list event -> list cond_obj -> Prop :=
| dispatched_nil h : dispatched acct h [] [] [] []
| dispatched_update h id buf r iocb lcb t ws os D objs :
    dispatched acct (S h) ws os D objs ->
    dispatched acct h (make_update id r buf iocb lcb :: ws)
      ({| op_block_id := id; op_token := Some t; op_recency := Some r |}
         :: os)
      (EvNew h (write_cond_t iocb)
         :: EvBlockWrites [write_info buf id] acct h [t]
         :: launch_events lcb t ++ D)
      (fresh_cond (write_cond_t iocb) :: objs)
| dispatched_delete h id ws os D objs :
    dispatched acct h ws os D objs ->
    dispatched acct h (make_delete id :: ws)
      ({| op_block_id := id; op_token := Some counted_null;
          op_recency := Some repli_timestamp_invalid |} :: os)
      D objs
| dispatched_touch h id r ws os D objs :
    dispatched acct h ws os D objs ->
    dispatched acct h (make_touch id r :: ws)
      ({| op_block_id := id; op_token := None; op_recency := Some r |}
         :: os)
      D objs.

(** Progress of the physical layer while the coroutine is suspended:
    [completed w B w'] holds when the completions [B] lead from [w] to
    [w']. *)
Record completed (w : world) (B : list event) (w' : world) : Prop := {
  completed_phys : phys_state w' = phys_state w;
  completed_trace : trace w' = trace w ++ B;
  completed_events : Forall (fun e => is_completion_event e = true) B;
  completed_inflight : pulses_of B ++ inflight w' ≡ₚ inflight w;
  completed_length : length (heap w') = length (heap w);
  completed_heap : forall c o, heap w !! c = Some o ->
    heap w' !! c =
      Some {| cls := cls o;
              pulsed := pulsed o || bool_decide (c ∈ pulses_of B);
              live := live o |};
}.

(** The events of one call of [on_io_complete] on an object of class
    [k], before its pulse. *)
Definition callback_events (k : cond_class) : list event :=
  match k with
  | write_cond_t (Some cb) => [EvIoCallback cb]
  | _ => []
  end.

(** The handles [cs] can be waited for and deleted, one after the other:
    they are distinct and alive, and each is signaled already or in
    flight. *)
Definition waitable (cs : list cond_ptr) (w : world) : Prop :=
  NoDup cs /\
  forall c, c ∈ cs ->
    exists o, heap w !! c = Some o /\ live o = true /\
              (pulsed o = true \/ c ∈ inflight w).

(** The barrier phase over the handles [cs]: [barrier cs w B w'] holds
    when waiting for and deleting each of them leads from [w] to [w'] with
    events [B]. *)
Record barrier (cs : list cond_ptr) (w : world) (B : list event)
    (w' : world) : Prop := {
  barrier_phys : phys_state w' = phys_state w;
  barrier_trace : trace w' = trace w ++ B;
  barrier_events : Forall (fun e => is_barrier_event e = true) B;
  barrier_waits : waits_of B = cs;
  barrier_deletes : deletes_of B = cs;
  barrier_inflight : pulses_of B ++ inflight w' ≡ₚ inflight w;
  barrier_length : length (heap w') = length (heap w);
  barrier_heap : forall c o, heap w !! c = Some o ->
    heap w' !! c =
      Some {| cls := cls o;
              pulsed := pulsed o || bool_decide (c ∈ pulses_of B);
              live := live o && bool_decide (c ∉ cs) |};
}.

(** The index update of a descriptor and the token handed to its launch
    callback. *)
Definition launch_of (x : serializer_write_t * index_write_op_t)
  : option (serializer_write_launched_callback_t *
            counted_t standard_block_token_t) :=
  match launch_callback_of x.1 with
  | Some cb => Some (cb, default counted_null (op_token x.2))
  | None => None
  end.

(** The reading of the dispatch and barrier phases in which the index
    update of an UPDATE is a placeholder that receives its token when the
    handle resolves: when the dispatch loop is over, the index update of an
    UPDATE descriptor carries no token yet. *)
Definition token_deferred_to_barrier (writes : list serializer_write_t)
    (acct : file_account_t) (w : world) : Prop :=
  forall cs os w1 i write op,
    dispatch_loop writes acct [] [] w = Done (cs, os) w1 ->
    writes !! i = Some write -> is_update write = true ->
    os !! i = Some op ->
    op_token op = None.

(** The single-block path as the words of the spec have it: [do_writes]
    on the batch of one UPDATE of the block, with its batch assembly. *)
Definition block_write_via_batch (buf : buf_ptr) (block_id : block_id_t)
    (recency : repli_timestamp_t) (io_callback : option iocallback_t)
    (launch_callback : option serializer_write_launched_callback_t)
    (io_account : file_account_t) : M unit :=
  do_writes [make_update block_id recency buf io_callback launch_callback]
    io_account.

(** [serializer_block_write] and the one-element batch leave the
    serializer in the same state. *)
Definition same_resulting_state (buf : buf_ptr) (block_id : block_id_t)
    (recency : repli_timestamp_t) (io_callback : option iocallback_t)
    (launch_callback : option serializer_write_launched_callback_t)
    (io_account : file_account_t) (w : world) : Prop :=
  exists t w1 w2,
    serializer_block_write buf block_id io_account w = Done t w1 /\
    block_write_via_batch buf block_id recency io_callback launch_callback
      io_account w = Done tt w2 /\
    phys_state w1 = phys_state w2.

(** Two handles that behave alike: same latch, same lifetime, same
    events on completion. *)
Definition obj_sim (o o' : cond_obj) : Prop :=
  pulsed o = pulsed o' /\ live o = live o' /\
  callback_events (cls o) = callback_events (cls o').

(** Two worlds that differ in the classes of alike handles and in the
    prefixes [ta] and [tb] of their traces only. *)
Definition sim (ta tb : list event) (wa wb : world) : Prop :=
  phys_state wa = phys_state wb /\
  inflight wa = inflight wb /\
  sched wa = sched wb /\
  Forall2 obj_sim (heap wa) (heap wb) /\
  exists T, trace wa = ta ++ T /\ trace wb = tb ++ T.

Definition sim_outcome {A} (ta tb : list event) (x y : outcome A) : Prop :=
  match x, y with
  | Done a wa, Done b wb => a = b /\ sim ta tb wa wb
  | Crash, Crash => True
  | Stuck, Stuck => True
  | _, _ => False
  end.

End Serializer.

Arguments world : clear implicits.
Arguments outcome : clear implicits.
Arguments M : clear implicits.

Arguments Done {phys A} a w.
Arguments Crash {phys A}.
Arguments Stuck {phys A}.

(** ** Block buffers and [serializer_data_ptr_t] *)

Section DataPtr.
(** What a block buffer holds, and what a buffer holds that was just
    allocated. *)
Context {contents : Type} (uninitialized : contents).

(** Modelled from the spec: the buffer allocator of the serializer
    ([ser->malloc()], [ser->clone(buf)] and the release of a buffer by its
    owner) is implemented outside [serializer.cc].  A buffer is an owned
    region of one block; [malloc] gives a fresh one, [clone] duplicates the
    contents of a buffer into a fresh one, a buffer is released exactly
    once and a double release is fatal.  The pool is the list of all
    buffers ever allocated, by address; a released buffer is [None]. *)
Definition pool := list (option contents).

Definition ser_malloc (p : pool) : nat * pool :=
  (length p, p ++ [Some uninitialized]).

Definition ser_clone (a : nat) (p : pool) : option (nat * pool) :=
  match p !! a with
  | Some (Some x) => Some (length p, p ++ [Some x])
  | _ => None
  end.

Definition buffer_release (a : nat) (p : pool) : option pool :=
  match p !! a with
  | Some (Some _) => Some (<[a := None]> p)
  | _ => None
  end.

(** [scoped_malloc_t<ser_buffer_t> ptr_]: null, or the address of the
    buffer it owns. *)
Record serializer_data_ptr_t := { ptr_ : option nat }.

(** [ptr_.has()]. *)
Definition has (this : serializer_data_ptr_t) : bool :=
  bool_decide (is_Some (ptr_ this)).

(** Modelled from the spec: [rassert] is declared outside
    [serializer.cc]; a violated contract is a fatal assertion. *)
Definition rassert (b : bool) : option unit :=
  if b then Some tt else None.

(** [ptr_.reset()]: releases the buffer that is owned, if any, and
    leaves the pointer null. *)
Definition scoped_reset (this : serializer_data_ptr_t) (p : pool)
  : option (serializer_data_ptr_t * pool) :=
  match ptr_ this with
  | Some a => p' ← buffer_release a p; Some ({| ptr_ := None |}, p')
  | None => Some ({| ptr_ := None |}, p)
  end.

(** [serializer_data_ptr_t::free]. *)
Definition data_ptr_free (this : serializer_data_ptr_t) (p : pool)
  : option (serializer_data_ptr_t * pool) :=
  _ ← rassert (has this);
  scoped_reset this p.

(** [serializer_data_ptr_t::init_malloc]. *)
Definition init_malloc (this : serializer_data_ptr_t) (p : pool)
  : option (serializer_data_ptr_t * pool) :=
  _ ← rassert (negb (has this));
  let r := ser_malloc p in
  Some ({| ptr_ := Some r.1 |}, r.2).

(** [serializer_data_ptr_t::init_clone]; [other] is [const]. *)
Definition init_clone (this other : serializer_data_ptr_t) (p : pool)
  : option (serializer_data_ptr_t * pool) :=
  _ ← rassert (has other);
  _ ← rassert (negb (has this));
  a ← ptr_ other;
  r ← ser_clone a p;
  Some ({| ptr_ := Some r.1 |}, r.2).

(** A pointer owns a buffer of the pool: it is null, or the buffer at
    its address has not been released. *)
Definition owns (this : serializer_data_ptr_t) (p : pool) : Prop :=
  match ptr_ this with
  | Some a => exists x, p !! a = Some (Some x)
  | None => True
  end.

End DataPtr.

(** ** The JSON wire protocol ([protob/json_shim.cc]) *)

From stdpp Require Import pretty strings.
Open Scope Z_scope.

(** A [char], as its value. *)
Abbreviation char := Z (only parsing).

(** The exceptions that [item.write_json] and its like may throw:
    [ql::base_exc_t], caught first, and any other [std::exception]. *)
Inductive json_exn :=
| base_exc_t (what : string)
| std_exception (what : string).

Inductive exn :=
| write_exn (e : json_exn)
| tcp_conn_read_closed_exc_t.

(** The calls on a [rapidjson::Writer]. *)
Inductive wcall :=
| WStartObject | WEndObject | WStartArray | WEndArray
| WKey (k : string)
| WInt (n : Z)
| WString (s : string)
| WBool (b : bool)
| WNull.

(** [ql::response_t], declared outside [json_shim.cc], through its
    accessors: [type()], [error_type()] (zero when there is none),
    [data()], [backtrace()] and [profile()] (absent or present) and
    [notes()]. *)
Record response_t (datum : Type) := {
  r_type : Z;
  r_error_type : Z;
  r_data : list datum;
  r_backtrace : option datum;
  r_profile : option datum;
  r_notes : list Z;
}.
Arguments r_type {datum} _.
Arguments r_error_type {datum} _.
Arguments r_data {datum} _.
Arguments r_backtrace {datum} _.
Arguments r_profile {datum} _.
Arguments r_notes {datum} _.

(** What [json_shim.cc] takes from elsewhere: the values that know how to
    write themselves, the bytes that a fresh [rapidjson::Writer] puts out
    for a sequence of calls, the members of [ql::response_t] that build
    an error, the values of the [Response] enumeration, the JSON parser
    and the constructor of [ql::query_params_t], the object
    representation of [int64_t] and [uint32_t] on the host, and three
    constants. *)
Class shim_env (datum doc query_params : Type) := {
  (** [x.write_json(&writer)]: the calls made, and the exception that
      ended them, if any. *)
  write_json : datum -> list wcall * option json_exn;
  render : list wcall -> list char;
  default_response : response_t datum;
  (** [fill_error(type, error_type, message, EMPTY_BACKTRACE)] and
      [fill_error(type, message, EMPTY_BACKTRACE)]. *)
  fill_error : response_t datum -> Z -> Z -> string -> response_t datum;
  fill_error3 : response_t datum -> Z -> string -> response_t datum;
  CLIENT_ERROR : Z;
  RUNTIME_ERROR : Z;
  SUCCESS_PARTIAL : Z;
  SUCCESS_SEQUENCE : Z;
  RESOURCE_LIMIT : Z;
  INTERNAL : Z;
  (** [doc.ParseInsitu(str)]; [None] when [doc.HasParseError()]. *)
  json_parse : list char -> option doc;
  (** [make_scoped<ql::query_params_t>(token, query_cache, buffer, doc)];
      [None] when the constructor throws [ql::bt_exc_t].  The buffer,
      which the document points into, goes with the document. *)
  make_query_params : Z -> N -> doc -> option query_params;
  (** [reinterpret_cast<const char *>(&x)[i]]. *)
  repr_int64 : Z -> nat -> char;
  repr_uint32 : Z -> nat -> char;
  (** The value of an object whose bytes were read from the wire. *)
  load_int64 : list char -> Z;
  load_uint32 : list char -> Z;
  MEGABYTE : Z;
  NDEBUG : bool;
  (** What reserved memory holds before it is written. *)
  uninit_char : char;
}.

Section JsonShim.
Context {datum doc query_params : Type} {env : shim_env datum doc query_params}.

Definition TOO_LARGE_QUERY_SIZE : Z := (64 * MEGABYTE) `mod` 2 ^ 32.
Definition TOO_LARGE_RESPONSE_SIZE : Z := 2 ^ 32 - 1.

Definition unparseable_query_message : string :=
  "Client is buggy (failed to deserialize query).".

(** [strprintf] with the conversions [%u] and [%zu]; the subtractions
    are done in [uint32_t]. *)
Definition too_large_query_message (size : Z) : string :=
  "Query size (" +:+ pretty size +:+ ") greater than maximum (" +:+
  pretty ((TOO_LARGE_QUERY_SIZE - 1) `mod` 2 ^ 32)%Z +:+ ").".

Definition too_large_response_message (size : Z) : string :=
  "Response size (" +:+ pretty size +:+ ") greater than maximum (" +:+
  pretty ((TOO_LARGE_RESPONSE_SIZE - 1) `mod` 2 ^ 32)%Z +:+ ").".

(** *** The connection *)

(** [tcp_conn_t], declared outside [json_shim.cc]: the bytes that the
    peer sends before it closes the connection, and the buffers written
    so far, one per call of [write].  Writes succeed and no call is
    interrupted. *)
Record conn_t := {
  conn_input : list char;
  conn_output : list (list char);
}.

(** A call returns, throws, fails a [guarantee], or needs more fuel. *)
Inductive result (A : Type) :=
| Returned (a : A) (conn : conn_t)
| Thrown (e : exn) (conn : conn_t)
| Aborted
| OutOfFuel.
Arguments Returned {A} a conn.
Arguments Thrown {A} e conn.
Arguments Aborted {A}.
Arguments OutOfFuel {A}.

(** [conn->read(buf, n, interruptor)]: the next [n] bytes; when the peer
    closes before that, what had arrived is consumed and
    [tcp_conn_read_closed_exc_t] is thrown. *)
Definition conn_read (n : nat) (conn : conn_t) : result (list char) :=
  if decide (n <= length (conn_input conn))%nat then
    Returned (take n (conn_input conn))
      {| conn_input := drop n (conn_input conn);
         conn_output := conn_output conn |}
  else
    Thrown tcp_conn_read_closed_exc_t
      {| conn_input := []; conn_output := conn_output conn |}.

(** [conn->write(buf, n, interruptor)]. *)
Definition conn_write (buf : list char) (conn : conn_t) : result unit :=
  Returned tt {| conn_input := conn_input conn;
                 conn_output := conn_output conn ++ [buf] |}.

(** *** Writing a response *)

(** A stretch of the [try] block: the calls made on the writer, and the
    exception that cut it short, if any. *)
Definition wstep := (list wcall * option json_exn)%type.

Definition wcalls (cs : list wcall) : wstep := (cs, None).

Definition wthen (a b : wstep) : wstep :=
  match a.2 with
  | Some e => a
  | None => (a.1 ++ b.1, b.2)
  end.

(** [for (auto const &item : response->data()) item.write_json(&writer)]. *)
Fixpoint write_items (items : list datum) : wstep :=
  match items with
  | [] => wcalls []
  | item :: rest => wthen (write_json item) (write_items rest)
  end.

(** The [try] block of [write_response_internal]. *)
Definition try_block (response : response_t datum) : wstep :=
  wthen (wcalls [WStartObject; WKey "t"; WInt (r_type response)])
 (wthen (if (r_type response =? RUNTIME_ERROR)
            && negb (r_error_type response =? 0)
         then wcalls [WKey "e"; WInt (r_error_type response)]
         else wcalls [])
 (wthen (wcalls [WKey "r"; WStartArray])
 (wthen (write_items (r_data response))
 (wthen (wcalls [WEndArray])
 (wthen (match r_backtrace response with
         | Some bt => wthen (wcalls [WKey "b"]) (write_json bt)
         | None => wcalls []
         end)
 (wthen (match r_profile response with
         | Some pr => wthen (wcalls [WKey "p"]) (write_json pr)
         | None => wcalls []
         end)
 (wthen (if (r_type response =? SUCCESS_PARTIAL)
            || (r_type response =? SUCCESS_SEQUENCE)
         then wcalls ([WKey "n"; WStartArray]
                      ++ map WInt (r_notes response) ++ [WEndArray])
         else wcalls [])
        (wcalls [WEndObject])))))))).

(** [buffer_out->Pop(n)]. *)
Definition buffer_pop (n : nat) (buffer : list char) : list char :=
  take (length buffer - n) buffer.

(** [buffer.Push(n)]. *)
Definition buffer_push (n : nat) (buffer : list char) : list char :=
  buffer ++ replicate n uninit_char.

(** The outcome of writing a response into a buffer: the response and
    the buffer as they are left, or the exception that escapes. *)
Inductive written :=
| Wrote (response : response_t datum) (buffer : list char)
| WriteThrown (e : json_exn)
| WriteOutOfFuel.

(** [write_response_internal].  The writer appends to the buffer as the
    calls are made; when an exception cuts the [try] block short, the
    buffer holds what was written until then. *)
Fixpoint write_response_internal (fuel : nat) (response : response_t datum)
    (buffer_out : list char) (throw_errors : bool) : written :=
  let start_offset := length buffer_out in
  let attempt := try_block response in
  let buffer := buffer_out ++ render attempt.1 in
  match attempt.2 with
  | None => Wrote response buffer
  | Some (base_exc_t what) =>
      let buffer := buffer_pop (length buffer - start_offset) buffer in
      let response := fill_error3 response RUNTIME_ERROR what in
      match fuel with
      | O => WriteOutOfFuel
      | S fuel' => write_response_internal fuel' response buffer true
      end
  | Some (std_exception what) =>
      if throw_errors then WriteThrown (std_exception what)
      else
        let buffer := buffer_pop (length buffer - start_offset) buffer in
        let response :=
          fill_error response RUNTIME_ERROR INTERNAL
            ("Internal error in json_protocol_t::write: " +:+ what) in
        match fuel with
        | O => WriteOutOfFuel
        | S fuel' => write_response_internal fuel' response buffer true
        end
  end.

(** [json_protocol_t::write_response_to_buffer]. *)
Definition write_response_to_buffer (fuel : nat)
    (response : response_t datum) (buffer_out : list char) : written :=
  if NDEBUG then write_response_internal fuel response buffer_out false
  else write_response_internal fuel response buffer_out true.

(** The two loops of [send_response] that fill in the token and the
    size. *)
Definition fill_bytes (offset count : nat) (byte_of : nat -> char)
    (buffer : list char) : list char :=
  foldl (fun b i => <[(i + offset)%nat := byte_of i]> b) buffer (seq 0 count).

(** [json_protocol_t::send_response]; [sizeof(token)] is [8] and
    [sizeof(data_size)] is [4]. *)
Fixpoint send_response (fuel : nat) (response : response_t datum)
    (token : Z) (conn : conn_t) : result (response_t datum) :=
  let prefix_size := (8 + 4)%nat in
  let buffer := buffer_push prefix_size [] in
  match write_response_to_buffer fuel response buffer with
  | WriteThrown e => Thrown (write_exn e) conn
  | WriteOutOfFuel => OutOfFuel
  | Wrote response buffer =>
      let payload_size := Z.of_nat (length buffer) - Z.of_nat prefix_size in
      if negb (0 <? payload_size) then Aborted
      else if TOO_LARGE_RESPONSE_SIZE <=? payload_size then
        let response :=
          fill_error response RUNTIME_ERROR RESOURCE_LIMIT
            (too_large_response_message payload_size) in
        match fuel with
        | O => OutOfFuel
        | S fuel' => send_response fuel' response token conn
        end
      else
        let buffer := fill_bytes 0 8 (repr_int64 token) buffer in
        let data_size := payload_size `mod` 2 ^ 32 in
        let buffer := fill_bytes 8 4 (repr_uint32 data_size) buffer in
        match conn_write buffer conn with
        | Returned _ conn => Returned response conn
        | Thrown e conn => Thrown e conn
        | Aborted => Aborted
        | OutOfFuel => OutOfFuel
        end
  end.

(** *** Reading a query *)

(** The string that starts at a [char *]: the bytes before the first
    zero. *)
Fixpoint c_str (buffer : list char) : list char :=
  match buffer with
  | [] => []
  | c :: rest => if c =? 0 then [] else c :: c_str rest
  end.

(** [json_protocol_t::parse_query_from_buffer]; a null result is
    [None]. *)
Definition parse_query_from_buffer (buffer : list char) (offset : nat)
    (query_cache : N) (token : Z) : option query_params :=
  match json_parse (c_str (drop offset buffer)) with
  | Some d =>
      match make_query_params token query_cache d with
      | Some res => Some res
      | None => None
      end
  | None => None
  end.

(** [json_protocol_t::parse_query]. *)
Definition parse_query (fuel : nat) (query_cache : N) (conn : conn_t)
  : result (option query_params) :=
  match conn_read 8 conn with
  | Thrown e conn => Thrown e conn
  | Aborted => Aborted
  | OutOfFuel => OutOfFuel
  | Returned token_bytes conn =>
  match conn_read 4 conn with
  | Thrown e conn => Thrown e conn
  | Aborted => Aborted
  | OutOfFuel => OutOfFuel
  | Returned size_bytes conn =>
      let token := load_int64 token_bytes in
      let size := load_uint32 size_bytes in
      if TOO_LARGE_QUERY_SIZE <=? size then
        let error :=
          fill_error default_response CLIENT_ERROR RESOURCE_LIMIT
            (too_large_query_message size) in
        match send_response fuel error token conn with
        | Returned _ conn => Thrown tcp_conn_read_closed_exc_t conn
        | Thrown e conn => Thrown e conn
        | Aborted => Aborted
        | OutOfFuel => OutOfFuel
        end
      else
        let data := replicate (Z.to_nat size + 1) uninit_char in
        match conn_read (Z.to_nat size) conn with
        | Thrown e conn => Thrown e conn
        | Aborted => Aborted
        | OutOfFuel => OutOfFuel
        | Returned payload conn =>
            let data := payload ++ drop (length payload) data in
            let data := <[Z.to_nat size := 0]> data in
            let res := parse_query_from_buffer data 0 query_cache token in
            match res with
            | Some _ => Returned res conn
            | None =>
                let error :=
                  fill_error default_response CLIENT_ERROR RESOURCE_LIMIT
                    unparseable_query_message in
                match send_response fuel error token conn with
                | Returned _ conn => Returned res conn
                | Thrown e conn => Thrown e conn
                | Aborted => Aborted
                | OutOfFuel => OutOfFuel
                end
            end
        end
  end
  end.

(** The frame of a response: the token, the size of the payload, the
    payload. *)
Definition frame (token : Z) (payload : list char) : list char :=
  map (repr_int64 token) (seq 0 8)
  ++ map (repr_uint32 (Z.of_nat (length payload))) (seq 0 4)
  ++ payload.

End JsonShim.

Arguments Returned {A} a conn.
Arguments Thrown {A} e conn.
Arguments Aborted {A}.
Arguments OutOfFuel {A}.

(** ** A small serializer to run the code on *)

Module Demo.

(** The physical layer appends blocks to a log of [4096]-byte extents
    and remembers every committed list of index updates. *)
Record demo_phys := {
  next_offset : Z;
  committed : list (list index_write_op_t);
}.

Definition demo_tokens (off : Z) (infos : list buf_write_info_t)
  : list (counted_t standard_block_token_t) :=
  imap (fun i info =>
          Some {| tok_offset := off + Z.of_nat i * bwi_block_size info;
                  tok_size := bwi_block_size info |}) infos.

#[global] Instance demo_ser : serializer_t demo_phys := {|
  get_block_size := 4096;
  ser_block_writes p infos _ :=
    ({| next_offset := next_offset p + 4096 * Z.of_nat (length infos);
        committed := committed p |},
     demo_tokens (next_offset p) infos);
  ser_index_write p ops _ :=
    {| next_offset := next_offset p; committed := committed p ++ [ops] |};
|}.

#[global] Instance demo_consts : constants := {|
  repli_timestamp_invalid := {| time := 4294967295%N |};
  sizeof_ser_buffer_t := 16;
|}.

Definition w0 : world demo_phys := {|
  phys_state := {| next_offset := 0; committed := [] |};
  heap := []; inflight := []; sched := [1%nat; 0%nat]; trace := [];
|}.

(** A world in which another coroutine has one write in flight, with a
    completion callback of its own. *)
Definition w_busy : world demo_phys := {|
  phys_state := {| next_offset := 8192; committed := [] |};
  heap := [{| cls := write_cond_t (Some 99%N); pulsed := false;
              live := true |}];
  inflight := [0%nat]; sched := [2%nat; 0%nat; 1%nat]; trace := [];
|}.

Definition t5 : repli_timestamp_t := {| time := 5%N |}.
Definition t9 : repli_timestamp_t := {| time := 9%N |}.

(** The batch of the spec's scenario, with callbacks on the UPDATE. *)
Definition batch3 : list serializer_write_t :=
  [ make_update 1%N t5 1000 (Some 70%N) (Some 80%N);
    make_delete 2%N;
    make_touch 3%N t9 ].

(** Two UPDATEs of one block identifier. *)
Definition batch_same : list serializer_write_t :=
  [ make_update 7%N t5 1000 None (Some 81%N);
    make_update 7%N t9 9000 (Some 71%N) (Some 82%N) ].

End Demo.

Module DemoShim.

(** A value that carries the calls it makes on the writer, and the
    exception it throws after them, if any. *)
Definition demo_datum := (list wcall * option json_exn)%type.

Definition chars_of (s : string) : list char :=
  map (fun a => Z.of_N (Ascii.N_of_ascii a)) (String.list_ascii_of_string s).

(** A writer that puts out the text of each call, without separators. *)
Definition demo_render_call (c : wcall) : list char :=
  match c with
  | WStartObject => [123]
  | WEndObject => [125]
  | WStartArray => [91]
  | WEndArray => [93]
  | WKey k => [34] ++ chars_of k ++ [34; 58]
  | WInt n => chars_of (pretty n)
  | WString x => [34] ++ chars_of x ++ [34]
  | WBool true => chars_of "true"
  | WBool false => chars_of "false"
  | WNull => chars_of "null"
  end.

(** Little-endian object representations. *)
Definition le_byte (x : Z) (i : nat) : char :=
  (x / 2 ^ (8 * Z.of_nat i)) `mod` 256.
Definition le_unsigned (bytes : list char) : Z :=
  foldr (fun b acc => b + 256 * acc) 0 bytes.
Definition le_signed64 (bytes : list char) : Z :=
  let u := le_unsigned bytes in
  if 2 ^ 63 <=? u then u - 2 ^ 64 else u.

Definition demo_error (type error_type : Z) (message : string)
  : response_t demo_datum :=
  {| r_type := type; r_error_type := error_type;
     r_data := [([WString message], None)];
     r_backtrace := Some ([WStartArray; WEndArray], None);
     r_profile := None; r_notes := [] |}.

#[global] Instance demo_shim
  : shim_env demo_datum (list char) (Z * list char) := {|
  write_json d := d;
  render cs := concat (map demo_render_call cs);
  default_response :=
    {| r_type := 1; r_error_type := 0; r_data := [];
       r_backtrace := None; r_profile := None; r_notes := [] |};
  fill_error _ type error_type message := demo_error type error_type message;
  fill_error3 _ type message := demo_error type 0 message;
  CLIENT_ERROR := 16;
  RUNTIME_ERROR := 18;
  SUCCESS_PARTIAL := 3;
  SUCCESS_SEQUENCE := 2;
  RESOURCE_LIMIT := 2000000;
  INTERNAL := 1000000;
  json_parse text :=
    match text with
    | 91 :: _ => Some text
    | _ => None
    end;
  make_query_params token _ d := Some (token, d);
  repr_int64 := le_byte;
  repr_uint32 := le_byte;
  load_int64 := le_signed64;
  load_uint32 := le_unsigned;
  MEGABYTE := 1048576;
  NDEBUG := true;
  uninit_char := 170;
|}.

(** A response with three notes whose second item throws
    [ql::base_exc_t], and one whose item throws another exception. *)
Definition resp_base_exc : response_t demo_datum :=
  {| r_type := 3; r_error_type := 0;
     r_data := [([WInt 1], None);
                ([WStartArray; WInt 2], Some (base_exc_t "boom"));
                ([WInt 3], None)];
     r_backtrace := None; r_profile := None; r_notes := [4; 5; 6] |}.

Definition resp_std_exc : response_t demo_datum :=
  {| r_type := 1; r_error_type := 0;
     r_data := [([WStartObject], Some (std_exception "bad_alloc"))];
     r_backtrace := None; r_profile := None; r_notes := [] |}.

Definition resp_ok : response_t demo_datum :=
  {| r_type := 2; r_error_type := 0;
     r_data := [([WInt 1], None); ([WString "x"], None)];
     r_backtrace := None; r_profile := Some ([WNull], None);
     r_notes := [7] |}.

(** A query [[1]] with token [-2], followed by the start of the next
    one. *)
Definition query_frame : list char :=
  map (le_byte (-2)) (seq 0 8) ++ map (le_byte 3) (seq 0 4) ++ [91; 49; 93].

Definition conn_query : conn_t :=
  {| conn_input := query_frame ++ [1; 2]; conn_output := [[9]] |}.

(** A query that is not JSON. *)
Definition conn_garbage : conn_t :=
  {| conn_input :=
       map (le_byte 77) (seq 0 8) ++ map (le_byte 2) (seq 0 4) ++ [120; 121];
     conn_output := [] |}.

(** A header that announces [64] megabytes. *)
Definition conn_huge : conn_t :=
  {| conn_input :=
       map (le_byte 5) (seq 0 8) ++ map (le_byte 67108864) (seq 0 4)
       ++ [91; 93];
     conn_output := [] |}.

(** A connection that closes in the middle of a query. *)
Definition conn_short : conn_t :=
  {| conn_input :=
       map (le_byte 5) (seq 0 8) ++ map (le_byte 10) (seq 0 4) ++ [91; 49];
     conn_output := [[9]] |}.

(** The two error responses of [parse_query], and what is left of a
    write. *)
Definition error_too_large (size : Z) : response_t demo_datum :=
  fill_error default_response CLIENT_ERROR RESOURCE_LIMIT
    ("Query size (" +:+ pretty size +:+ ") greater than maximum ("
     +:+ pretty ((TOO_LARGE_QUERY_SIZE - 1) `mod` 2 ^ 32) +:+ ").").

Definition error_unparseable : response_t demo_datum :=
  fill_error default_response CLIENT_ERROR RESOURCE_LIMIT
    "Client is buggy (failed to deserialize query).".

Definition wrote_response (w : written) : response_t demo_datum :=
  match w with Wrote r _ => r | _ => default_response end.
Definition wrote_buffer (w : written (datum := demo_datum)) : list char :=
  match w with Wrote _ b => b | _ => [] end.

End DemoShim.

Module DemoFaulty.


(** A pool of block buffers over integers: one live buffer, one released
    one. *)
Definition pool2 : pool (contents := Z) := [Some 7; None].

End DemoFaulty.

(** ** Proofs *)

Section Proofs.
Context {phys : Type} {ser : serializer_t phys} {consts : constants}.

Implicit Types (w wa wb : world phys) (c : cond_ptr) (acct : file_account_t).

Ltac run :=
  repeat progress
    (unfold bind, ret, get, modify, log, guarantee, crash,
       with_heap, with_phys, with_inflight, with_sched, emit; simpl).

(** *** One descriptor *)

Lemma descriptor_cases (write : serializer_write_t) :
  (exists id buf r iocb lcb, write = make_update id r buf iocb lcb)
  \/ (exists id, write = make_delete id)
  \/ (exists id r, write = make_touch id r).
Proof.
  destruct write as [id [buf r iocb lcb| |r]]; simpl; eauto 8.
Qed.

Lemma one_token_singleton p info acct :
  one_token_per_write ->
  exists t, snd (ser_block_writes p [info] acct) = [t].
Proof.
  intros H. specialize (H p [info] acct).
  destruct (snd (ser_block_writes p [info] acct)) as [|t [|]];
    simpl in H; try discriminate. eauto.
Qed.

Lemma perform_write_update id r buf iocb lcb acct conds op w t :
  snd (ser_block_writes (phys_state w) [write_info buf (op_block_id op)] acct)
    = [t] ->
  perform_write (make_update id r buf iocb lcb) acct conds op w =
    Done (conds ++ [length (heap w)], set_recency r (set_token t op))
      {| phys_state :=
           fst (ser_block_writes (phys_state w)
                  [write_info buf (op_block_id op)] acct);
         heap := heap w ++ [fresh_cond (write_cond_t iocb)];
         inflight := inflight w ++ [length (heap w)];
         sched := sched w;
         trace := trace w ++
           EvNew (length (heap w)) (write_cond_t iocb)
           :: EvBlockWrites [write_info buf (op_block_id op)] acct
                (length (heap w)) [t]
           :: launch_events lcb t |}.
Proof.
  intros Ht. unfold perform_write, new_cond,
    block_writes, on_write_launched. run.
  rewrite List.last_last. fold (write_info buf (op_block_id op)).
  rewrite Ht. simpl.
  destruct lcb; simpl; rewrite <- ?app_assoc; reflexivity.
Qed.

Lemma perform_write_delete id acct conds op w :
  perform_write (make_delete id) acct conds op w =
    Done (conds, {| op_block_id := op_block_id op;
                    op_token := Some counted_null;
                    op_recency := Some repli_timestamp_invalid |}) w.
Proof. reflexivity. Qed.

Lemma perform_write_touch id r acct conds op w :
  perform_write (make_touch id r) acct conds op w =
    Done (conds, {| op_block_id := op_block_id op;
                    op_token := op_token op;
                    op_recency := Some r |}) w.
Proof. reflexivity. Qed.

(** *** The dispatch phase *)

Lemma dispatch_loop_spec writes acct conds ops w :
  one_token_per_write ->
  exists os D objs p',
    dispatched acct (length (heap w)) writes os D objs /\
    dispatch_loop writes acct conds ops w =
      Done (conds ++ seq (length (heap w)) (length objs), ops ++ os)
        {| phys_state := p';
           heap := heap w ++ objs;
           inflight := inflight w ++ seq (length (heap w)) (length objs);
           sched := sched w;
           trace := trace w ++ D |}.
Proof.
  intros Hone. revert conds ops w.
  induction writes as [|write rest IH]; intros conds ops w.
  - exists [], [], [], (phys_state w). split; [constructor|].
    destruct w; simpl. run. by rewrite !app_nil_r.
  - destruct (descriptor_cases write)
      as [(id & buf & r & iocb & lcb & ->)|[(id & ->)|(id & r & ->)]];
      cbn [dispatch_loop]; unfold bind at 1.
    + destruct (one_token_singleton (phys_state w) (write_info buf id) acct Hone)
        as [t Ht].
      rewrite (perform_write_update _ _ _ _ _ _ _ _ _ t) by exact Ht.
      cbn [fst snd index_write_op_init op_block_id set_token set_recency
           op_token op_recency block_id make_update].
      match goal with |- context [dispatch_loop _ _ ?cs ?os ?w1] =>
        destruct (IH cs os w1) as (os' & D & objs & p' & Hd & ->) end.
      cbn [heap inflight sched trace phys_state] in *.
      rewrite length_app, Nat.add_1_r in Hd |- *.
      eexists (_ :: os'), (_ :: _ :: _ ++ D), (_ :: objs), p'.
      split; [econstructor; exact Hd|].
      cbn [length seq]. rewrite <- !app_assoc. reflexivity.
    + rewrite perform_write_delete.
      cbn [fst snd index_write_op_init op_block_id op_token block_id
           make_delete make_touch].
      match goal with |- context [dispatch_loop _ _ ?cs ?os ?w1] =>
        destruct (IH cs os w1) as (os' & D & objs & p' & Hd & ->) end.
      eexists (_ :: os'), D, objs, p'.
      split; [econstructor; exact Hd|].
      rewrite <- !app_assoc. reflexivity.
    + rewrite perform_write_touch.
      cbn [fst snd index_write_op_init op_block_id op_token block_id
           make_delete make_touch].
      match goal with |- context [dispatch_loop _ _ ?cs ?os ?w1] =>
        destruct (IH cs os w1) as (os' & D & objs & p' & Hd & ->) end.
      eexists (_ :: os'), D, objs, p'.
      split; [econstructor; exact Hd|].
      rewrite <- !app_assoc. reflexivity.
Qed.

(** *** Physical completions *)

Lemma pulses_of_app (B B' : list event) :
  pulses_of (B ++ B') = pulses_of B ++ pulses_of B'.
Proof. apply omap_app. Qed.

Lemma completed_refl w : completed w [] w.
Proof.
  split; simpl; try done.
  - by rewrite app_nil_r.
  - intros c o Hc. rewrite Hc. f_equal. destruct o; simpl.
    by rewrite orb_false_r.
Qed.

Lemma completed_trans w B w1 B' w2 :
  completed w B w1 -> completed w1 B' w2 -> completed w (B ++ B') w2.
Proof.
  intros [Hp Ht He Hi Hl Hh] [Hp' Ht' He' Hi' Hl' Hh']. split.
  - congruence.
  - by rewrite Ht', Ht, app_assoc.
  - by apply Forall_app.
  - by rewrite pulses_of_app, <- app_assoc, Hi', Hi.
  - congruence.
  - intros c o Hc. rewrite (Hh' _ _ (Hh _ _ Hc)). simpl. do 2 f_equal.
    rewrite pulses_of_app, <- orb_assoc. f_equal.
    apply eq_true_iff_eq. rewrite orb_true_iff, !bool_decide_eq_true.
    by rewrite elem_of_app.
Qed.

Lemma pulse_spec c o w :
  heap w !! c = Some o -> live o = true -> pulsed o = false ->
  pulse c w =
    Done tt {| phys_state := phys_state w;
               heap := <[c := {| cls := cls o; pulsed := true;
                                 live := live o |}]> (heap w);
               inflight := inflight w; sched := sched w;
               trace := trace w ++ [EvPulse c] |}.
Proof.
  intros Hc Hl Hp. unfold pulse, deref. run. rewrite Hc. simpl.
  rewrite Hl, Hp. simpl. by rewrite ?Hl.
Qed.

Lemma on_io_complete_spec c o w :
  heap w !! c = Some o -> live o = true -> pulsed o = false ->
  on_io_complete c w =
    Done tt {| phys_state := phys_state w;
               heap := <[c := {| cls := cls o; pulsed := true;
                                 live := live o |}]> (heap w);
               inflight := inflight w; sched := sched w;
               trace := trace w ++ callback_events (cls o) ++ [EvPulse c] |}.
Proof.
  intros Hc Hl Hp. unfold on_io_complete, deref at 1. run. rewrite Hc, Hl.
  destruct (cls o) as [[cb|]|] eqn:Hk;
    unfold write_cond_on_io_complete, local_cond_on_io_complete,
      iocallback_on_io_complete; run.
  all: erewrite pulse_spec by (simpl; eauto); simpl.
  all: by rewrite ?Hk, ?Hl, <- ?app_assoc.
Qed.

Lemma pulses_of_callback_events k c :
  pulses_of (callback_events k ++ [EvPulse c]) = [c].
Proof. by destruct k as [[?|]|]. Qed.

Lemma callback_events_completion k c :
  Forall (fun e => is_completion_event e = true)
    (callback_events k ++ [EvPulse c]).
Proof. destruct k as [[?|]|]; repeat constructor. Qed.

Lemma deliver_one_spec w :
  wf_world w -> inflight w <> [] ->
  exists B w',
    deliver_one w = Done tt w' /\ completed w B w' /\ wf_world w' /\
    S (length (inflight w')) = length (inflight w).
Proof.
  intros [Hnd Hwf] Hne.
  set (i := (hd 0%nat (sched w) mod length (inflight w))%nat).
  assert (Hi : (i < length (inflight w))%nat).
  { apply Nat.mod_upper_bound. by destruct (inflight w). }
  destruct (lookup_lt_is_Some_2 _ _ Hi) as [c Hc].
  destruct (Hwf c) as (o & Ho & Hp & Hl).
  { by eapply list_elem_of_lookup_2. }
  pose proof (delete_Permutation _ _ _ Hc) as Hperm.
  assert (Hnd' : NoDup (c :: delete i (inflight w))) by by rewrite <- Hperm.
  apply NoDup_cons in Hnd' as [Hnotin Hnd'].
  eexists (callback_events (cls o) ++ [EvPulse c]), _.
  split; [|split; [|split]].
  - unfold deliver_one. run. fold i. rewrite Hc.
    erewrite on_io_complete_spec by (simpl; eauto). simpl. reflexivity.
  - split; simpl; try done.
    + apply callback_events_completion.
    + rewrite pulses_of_callback_events. symmetry. exact Hperm.
    + by rewrite length_insert.
    + intros c' o' Hc'. rewrite pulses_of_callback_events.
      destruct (decide (c' = c)) as [->|Hneq].
      * rewrite list_lookup_insert_eq by by eapply lookup_lt_Some.
        assert (o' = o) as -> by congruence.
        rewrite bool_decide_eq_true_2 by (by apply list_elem_of_singleton).
        by rewrite orb_true_r.
      * rewrite list_lookup_insert_ne by done.
        rewrite bool_decide_eq_false_2 by by intros ->%list_elem_of_singleton.
        rewrite orb_false_r, Hc'. by destruct o'.
  - split; simpl; [done|].
    intros c' Hin.
    assert (c' <> c) by (intros ->; done).
    destruct (Hwf c') as (o' & Ho' & Hp' & Hl').
    { rewrite Hperm. set_solver. }
    exists o'. by rewrite list_lookup_insert_ne.
  - simpl. rewrite length_delete by eauto.
    destruct (length (inflight w)); lia.
Qed.

(** *** Waiting *)

Lemma wait_loop_spec fuel w c o :
  wf_world w -> heap w !! c = Some o -> live o = true ->
  pulsed o = true \/ c ∈ inflight w ->
  (length (inflight w) <= fuel)%nat ->
  exists B w',
    wait_loop fuel c w = Done tt w' /\ completed w B w' /\ wf_world w' /\
    pulsed o || bool_decide (c ∈ pulses_of B) = true.
Proof.
  revert w o. induction fuel as [|fuel IH]; intros w o Hwf Hc Hl Hpi Hlen;
    cbn [wait_loop]; unfold bind at 1, deref; rewrite Hc, Hl;
    destruct (pulsed o) eqn:Hp.
  - exists [], w. eauto using completed_refl.
  - destruct Hpi as [|Hin]; [done|].
    destruct (inflight w); [by apply elem_of_nil in Hin|simpl in Hlen; lia].
  - exists [], w. eauto using completed_refl.
  - destruct Hpi as [|Hin]; [done|].
    destruct (deliver_one_spec w Hwf) as (B1 & w1 & Hd & Hcomp & Hwf1 & Hlen1).
    { intros Hnil. rewrite Hnil in Hin. by apply elem_of_nil in Hin. }
    unfold bind. rewrite Hd.
    pose proof (completed_heap _ _ _ Hcomp _ _ Hc) as Hc1.
    edestruct (IH w1) as (B2 & w2 & Hrun & Hcomp2 & Hwf2 & Hp2);
      [exact Hwf1|exact Hc1|exact Hl| |lia|].
    { simpl. rewrite Hp. simpl. rewrite bool_decide_eq_true.
      rewrite <- (completed_inflight _ _ _ Hcomp), elem_of_app in Hin.
      tauto. }
    exists (B1 ++ B2), w2. split; [exact Hrun|].
    split; [by eapply completed_trans|]. split; [done|].
    simpl in Hp2. rewrite Hp in Hp2. simpl in *.
    rewrite pulses_of_app.
    apply orb_true_iff in Hp2. rewrite !bool_decide_eq_true in *.
    rewrite elem_of_app. tauto.
Qed.

Lemma wait_spec w c o :
  wf_world w -> heap w !! c = Some o -> live o = true ->
  pulsed o = true \/ c ∈ inflight w ->
  exists B w',
    wait c w = Done tt (emit (EvWait c) w') /\ completed w B w' /\
    wf_world w' /\ pulsed o || bool_decide (c ∈ pulses_of B) = true.
Proof.
  intros Hwf Hc Hl Hpi.
  destruct (wait_loop_spec (length (inflight w)) w c o)
    as (B & w' & Hrun & Hcomp & Hwf' & Hp); [done..|].
  exists B, w'. unfold wait, bind at 1, get, bind. rewrite Hrun. done.
Qed.

Lemma delete_cond_spec c o w :
  heap w !! c = Some o -> live o = true ->
  delete_cond c w =
    Done tt {| phys_state := phys_state w;
               heap := <[c := {| cls := cls o; pulsed := pulsed o;
                                 live := false |}]> (heap w);
               inflight := inflight w; sched := sched w;
               trace := trace w ++ [EvDelete c] |}.
Proof.
  intros Hc Hl. unfold delete_cond, deref. run. rewrite Hc. simpl.
  by rewrite Hl.
Qed.

(** *** The barrier phase *)

Lemma completion_is_barrier (B : list event) :
  Forall (fun e => is_completion_event e = true) B ->
  Forall (fun e => is_barrier_event e = true) B.
Proof. intros H. eapply Forall_impl; [exact H|]. by intros []. Qed.

Lemma completion_no_waits (B : list event) :
  Forall (fun e => is_completion_event e = true) B ->
  waits_of B = [] /\ deletes_of B = [].
Proof.
  induction 1 as [|e B He _ [IHw IHd]]; [done|].
  destruct e; try discriminate; simpl; by rewrite ?IHw, ?IHd.
Qed.

Lemma barrier_nil w : barrier [] w [] w.
Proof.
  split; simpl; try done.
  - by rewrite app_nil_r.
  - intros c o Hc. rewrite Hc. f_equal. destruct o; simpl.
    by rewrite orb_false_r, andb_true_r.
Qed.

Lemma wait_all_spec cs w :
  wf_world w -> waitable cs w ->
  exists B w', wait_all cs w = Done tt w' /\ barrier cs w B w' /\ wf_world w'.
Proof.
  revert w. induction cs as [|c cs IH]; intros w Hwf [Hnd Hcs].
  { exists [], w. eauto using barrier_nil. }
  apply NoDup_cons in Hnd as [Hc_cs Hnd].
  destruct (Hcs c) as (o & Hc & Hl & Hpi); [by left|].
  destruct (wait_spec w c o) as (B1 & w1 & Hrun1 & Hcomp & Hwf1 & Hp1);
    [done..|].
  assert (Hc1 : heap w1 !! c =
                Some {| cls := cls o; pulsed := true; live := live o |}).
  { rewrite (completed_heap _ _ _ Hcomp _ _ Hc). do 2 f_equal. exact Hp1. }
  (* the world after [wait c] and [delete c] *)
  set (w2 := {| phys_state := phys_state w1;
                heap := <[c := {| cls := cls o; pulsed := true;
                                  live := false |}]> (heap w1);
                inflight := inflight w1; sched := sched w1;
                trace := (trace w1 ++ [EvWait c]) ++ [EvDelete c] |}).
  assert (Hrun2 : delete_cond c (emit (EvWait c) w1) = Done tt w2).
  { by erewrite delete_cond_spec by (simpl; eauto). }
  assert (Hne : forall c', c' ∈ inflight w1 -> c' <> c).
  { intros c' Hin ->. destruct Hwf1 as [_ Hwf1].
    destruct (Hwf1 c Hin) as (o' & Ho' & Hp' & _).
    rewrite Hc1 in Ho'. by injection Ho' as <-. }
  assert (Hwf2 : wf_world w2).
  { destruct Hwf1 as [Hnd1 Hwf1]. split; [done|]. intros c' Hin.
    destruct (Hwf1 c' Hin) as (o' & Ho' & Hp' & Hl').
    exists o'. simpl. rewrite list_lookup_insert_ne by (symmetry; eauto).
    done. }
  assert (Hcs2 : waitable cs w2).
  { split; [done|]. intros c' Hin.
    assert (c' <> c) by (intros ->; done).
    destruct (Hcs c') as (o' & Ho' & Hl' & Hpi'); [by right|].
    eexists. simpl. rewrite list_lookup_insert_ne by done.
    split; [exact (completed_heap _ _ _ Hcomp _ _ Ho')|]. simpl.
    split; [done|]. destruct Hpi' as [->|Hin']; [by left|].
    rewrite <- (completed_inflight _ _ _ Hcomp), elem_of_app in Hin'.
    destruct Hin' as [Hin'|Hin']; [left|by right].
    by rewrite bool_decide_eq_true_2, orb_true_r. }
  destruct (IH w2 Hwf2 Hcs2) as (B2 & w3 & Hrun3 & Hbar & Hwf3).
  exists (B1 ++ [EvWait c; EvDelete c] ++ B2), w3.
  split; [|split; [|done]].
  { cbn [wait_all]. unfold bind. by rewrite Hrun1, Hrun2. }
  destruct Hcomp as [Hp Ht He Hi Hlen Hh].
  destruct Hbar as [Hp' Ht' He' Hw' Hd' Hi' Hlen' Hh'].
  destruct (completion_no_waits B1 He) as [Hw1 Hd1].
  assert (Hpul : pulses_of (B1 ++ [EvWait c; EvDelete c] ++ B2)
                 = pulses_of B1 ++ pulses_of B2).
  { by rewrite !pulses_of_app. }
  split.
  - by rewrite Hp'.
  - rewrite Ht'. simpl. rewrite Ht. by rewrite <- !app_assoc.
  - apply Forall_app. split; [by apply completion_is_barrier|].
    by repeat constructor.
  - unfold waits_of in *. rewrite !omap_app, Hw1. simpl. by f_equal.
  - unfold deletes_of in *. rewrite !omap_app, Hd1. simpl. by f_equal.
  - rewrite Hpul, <- app_assoc, Hi'. exact Hi.
  - rewrite Hlen'. simpl. by rewrite length_insert.
  - intros c' o' Ho'. rewrite Hpul.
    pose proof (Hh _ _ Ho') as Ho1.
    destruct (decide (c' = c)) as [->|Hneq].
    + assert (o' = o) as -> by congruence.
      erewrite Hh'; last first.
      { simpl. apply list_lookup_insert_eq. rewrite Hlen.
        by eapply lookup_lt_Some. }
      simpl. do 2 f_equal.
      * symmetry. apply orb_true_iff in Hp1 as [->|Hin]; [done|].
        apply bool_decide_eq_true in Hin.
        rewrite bool_decide_eq_true_2 by (apply elem_of_app; by left).
        by rewrite orb_true_r.
      * rewrite bool_decide_eq_false_2 by (intros Hn; apply Hn; by left).
        by rewrite andb_false_r.
    + erewrite Hh'; last first.
      { simpl. rewrite list_lookup_insert_ne by done. exact Ho1. }
      simpl. do 2 f_equal.
      * rewrite <- orb_assoc. f_equal.
        apply eq_true_iff_eq.
        rewrite orb_true_iff, !bool_decide_eq_true, elem_of_app. done.
      * f_equal. apply bool_decide_ext. rewrite not_elem_of_cons. tauto.
Qed.

(** *** What the dispatch relation says about a batch *)

Lemma dispatched_events acct h writes os D objs :
  dispatched acct h writes os D objs ->
  Forall (fun e => is_dispatch_event e = true) D.
Proof.
  intros Hd.
  induction Hd as [|? ? ? ? ? [?|]| |]; simpl; repeat constructor; done.
Qed.

Lemma dispatched_fresh acct h writes os D objs :
  dispatched acct h writes os D objs ->
  Forall (fun o => pulsed o = false /\ live o = true) objs.
Proof.
  intros Hd. induction Hd; by repeat constructor. Qed.

Lemma dispatched_news acct h writes os D objs :
  dispatched acct h writes os D objs ->
  news_of D = seq h (length objs).
Proof.
  intros Hd.
  induction Hd as [|? ? ? ? ? [?|]| |]; simpl; try done;
    unfold news_of in *; simpl; by f_equal.
Qed.

Lemma dispatched_block_ids acct h writes os D objs :
  dispatched acct h writes os D objs ->
  map op_block_id os = map block_id writes.
Proof.
  intros Hd. induction Hd; simpl; by f_equal. Qed.

Lemma dispatched_length acct h writes os D objs :
  dispatched acct h writes os D objs ->
  length os = length writes.
Proof.
  intros Hd. induction Hd; simpl; by f_equal. Qed.

Lemma dispatched_launches acct h writes os D objs :
  dispatched acct h writes os D objs ->
  map fst (launches_of D) = omap launch_callback_of writes.
Proof.
  intros Hd.
  induction Hd as [|? ? ? ? ? [?|]| |]; simpl; try done;
    unfold launches_of in *; simpl; by f_equal.
Qed.

Lemma dispatched_block_writes acct h writes os D objs :
  dispatched acct h writes os D objs ->
  map (fun x => x.1.1) (block_writes_of D) =
    map (fun bi => [write_info bi.1 bi.2]) (omap update_block_of writes).
Proof.
  intros Hd.
  induction Hd as [|? ? ? ? ? [?|]| |]; simpl; try done;
    unfold block_writes_of in *; simpl; by f_equal.
Qed.

Lemma dispatched_quiet acct h writes os D objs :
  dispatched acct h writes os D objs ->
  pulses_of D = [] /\ waits_of D = [] /\ deletes_of D = [] /\
  commits_of D = [].
Proof.
  intros Hd.
  induction Hd as [|? ? ? ? ? [?|]| |]; simpl; done.
Qed.

(** *** The whole of [do_writes] *)

Lemma dispatch_ready w objs (p : phys) tr :
  wf_world w ->
  Forall (fun o => pulsed o = false /\ live o = true) objs ->
  let cs := seq (length (heap w)) (length objs) in
  let w1 := {| phys_state := p; heap := heap w ++ objs;
               inflight := inflight w ++ cs; sched := sched w;
               trace := tr |} in
  wf_world w1 /\ waitable cs w1 /\
  (forall c, c ∈ cs -> c ∉ inflight w).
Proof.
  intros [Hnd Hwf] Hfresh cs w1.
  assert (Hnew : forall c, c ∈ cs ->
            exists o, heap w1 !! c = Some o /\ pulsed o = false /\
                      live o = true).
  { intros c [Hge Hlt]%elem_of_seq. simpl.
    rewrite lookup_app_r by lia.
    destruct (lookup_lt_is_Some_2 objs (c - length (heap w))) as [o Ho];
      [lia|].
    exists o. split; [done|].
    by eapply (Forall_lookup_1 _ _ _ _ Hfresh). }
  assert (Hold : forall c, c ∈ inflight w -> (c < length (heap w))%nat).
  { intros c Hin. destruct (Hwf c Hin) as (o & Ho & _).
    by eapply lookup_lt_Some. }
  assert (Hdisj : forall c, c ∈ cs -> c ∉ inflight w).
  { intros c [Hge Hlt]%elem_of_seq Hin. apply Hold in Hin. lia. }
  split; [split|split]; simpl.
  - apply NoDup_app. split; [done|]. split; [|apply NoDup_seq].
    intros c Hin Hin'. by eapply Hdisj.
  - intros c [Hin|Hin]%elem_of_app; [|by apply Hnew].
    destruct (Hwf c Hin) as (o & Ho & Hp & Hl).
    exists o. split; [|done]. by apply lookup_app_l_Some.
  - split; [apply NoDup_seq|]. intros c Hin.
    destruct (Hnew c Hin) as (o & Ho & Hp & Hl).
    exists o. split; [done|]. split; [done|]. right. simpl.
    apply elem_of_app. by right.
  - exact Hdisj.
Qed.

(** The run of [do_writes], phase by phase: the world [w1] after the
    dispatch loop, the world [w2] after the barrier, and the commit. *)
Lemma do_writes_spec writes acct w :
  one_token_per_write -> wf_world w ->
  exists os D objs B w1 w2,
    let cs := seq (length (heap w)) (length objs) in
    dispatched acct (length (heap w)) writes os D objs /\
    dispatch_loop writes acct [] [] w = Done (cs, os) w1 /\
    trace w1 = trace w ++ D /\
    inflight w1 = inflight w ++ cs /\
    wf_world w1 /\ waitable cs w1 /\
    wait_all cs w1 = Done tt w2 /\
    barrier cs w1 B w2 /\
    wf_world w2 /\
    do_writes writes acct w =
      Done tt {| phys_state := ser_index_write (phys_state w2) os acct;
                 heap := heap w2; inflight := inflight w2;
                 sched := sched w2;
                 trace := trace w2 ++ [EvIndexWrite os acct] |}.
Proof.
  intros Hone Hwf.
  destruct (dispatch_loop_spec writes acct [] [] w Hone)
    as (os & D & objs & p' & Hd & Hrun1).
  simpl in Hrun1.
  match type of Hrun1 with _ = Done _ ?x => set (w1 := x) in * end.
  destruct (dispatch_ready w objs p' (trace w ++ D) Hwf
              (dispatched_fresh _ _ _ _ _ _ Hd)) as (Hwf1 & Hcs1 & _).
  fold w1 in Hwf1, Hcs1.
  destruct (wait_all_spec _ w1 Hwf1 Hcs1) as (B & w2 & Hrun2 & Hbar & Hwf2).
  exists os, D, objs, B, w1, w2. cbn zeta.
  repeat (split; [done|]).
  unfold do_writes, assert_thread, index_write. run.
  rewrite Hrun1. simpl. by rewrite Hrun2.
Qed.

Lemma barrier_signals cs w B w' :
  barrier cs w B w' -> waitable cs w -> wf_world w' ->
  forall c, c ∈ cs -> c ∈ inflight w -> c ∈ pulses_of B.
Proof.
  intros Hbar [_ Hcs] [_ Hwf'] c Hin Hfl.
  rewrite <- (barrier_inflight _ _ _ _ Hbar), elem_of_app in Hfl.
  destruct Hfl as [|Hfl]; [done|].
  destruct (Hcs c Hin) as (o & Ho & _).
  destruct (Hwf' c Hfl) as (o' & Ho' & _ & Hl').
  rewrite (barrier_heap _ _ _ _ Hbar _ _ Ho) in Ho'.
  injection Ho' as <-. simpl in Hl'.
  rewrite bool_decide_eq_false_2, andb_false_r in Hl' by tauto. done.
Qed.

Lemma barrier_no_commits (B : list event) :
  Forall (fun e => is_barrier_event e = true) B ->
  commits_of B = [] /\ launches_of B = [] /\ news_of B = [] /\
  block_writes_of B = [].
Proof.
  induction 1 as [|e B He _ (IH1 & IH2 & IH3 & IH4)]; [done|].
  destruct e; try discriminate; simpl; done.
Qed.

(** The trace of [do_writes]: the events [D] of the dispatch phase, the
    events [B] of the barrier phase, and one commit. *)
Lemma do_writes_trace writes acct w :
  one_token_per_write -> wf_world w ->
  exists os D objs B w',
    let cs := seq (length (heap w)) (length objs) in
    dispatched acct (length (heap w)) writes os D objs /\
    do_writes writes acct w = Done tt w' /\
    trace w' = trace w ++ D ++ B ++ [EvIndexWrite os acct] /\
    Forall (fun e => is_barrier_event e = true) B /\
    waits_of B = cs /\ deletes_of B = cs /\
    NoDup (pulses_of B) /\
    (forall c, c ∈ cs -> c ∈ pulses_of B) /\
    wf_world w'.
Proof.
  intros Hone Hwf.
  destruct (do_writes_spec writes acct w Hone Hwf)
    as (os & D & objs & B & w1 & w2 & Hd & Hrun1 & Ht1 & Hi1 & Hwf1 & Hcs1
        & Hrun2 & Hbar & Hwf2 & Hrun).
  exists os, D, objs, B. eexists. cbn zeta.
  split; [done|]. split; [exact Hrun|]. simpl.
  split. { by rewrite (barrier_trace _ _ _ _ Hbar), Ht1, <- !app_assoc. }
  split; [by destruct Hbar|].
  split; [by destruct Hbar|].
  split; [by destruct Hbar|].
  split.
  { destruct Hwf1 as [Hnd1 _].
    rewrite <- (barrier_inflight _ _ _ _ Hbar) in Hnd1.
    by apply NoDup_app in Hnd1 as [? _]. }
  split.
  { intros c Hin. eapply barrier_signals; eauto.
    rewrite Hi1. apply elem_of_app. by right. }
  exact Hwf2.
Qed.

Lemma dispatched_lookup acct h writes os D objs i write :
  dispatched acct h writes os D objs ->
  writes !! i = Some write ->
  exists op,
    os !! i = Some op /\ op_block_id op = block_id write /\
    match action write with
    | UPDATE buf r _ lcb =>
        op_recency op = Some r /\
        exists t c,
          op_token op = Some t /\
          ([write_info buf (block_id write)], c, [t]) ∈ block_writes_of D /\
          forall cb, lcb = Some cb -> (cb, t) ∈ launches_of D
    | DELETE =>
        op_token op = Some counted_null /\
        op_recency op = Some repli_timestamp_invalid
    | TOUCH r => op_token op = None /\ op_recency op = Some r
    end.
Proof.
  intros Hd. revert i.
  induction Hd as [|h id buf r iocb lcb t ws os D objs Hd IH
                    |h id ws os D objs Hd IH|h id r ws os D objs Hd IH];
    intros [|i] Hi; simplify_eq/=.
  - eexists. split; [done|]. split; [done|]. split; [done|].
    exists t, h. split; [done|]. split; [by left|].
    intros cb ->. by left.
  - destruct (IH i Hi) as (op & Hop & Hid & Hact).
    exists op. split; [done|]. split; [done|].
    destruct (action write) as [buf' r' iocb' lcb'| |]; [|done..].
    destruct Hact as (Hr & t' & c' & Ht' & Hbw & Hl).
    split; [done|]. exists t', c'. split; [done|].
    unfold block_writes_of, launches_of in *. simpl.
    split.
    + right. rewrite omap_app, elem_of_app. by right.
    + intros cb Hcb. rewrite omap_app, elem_of_app. right. by apply Hl.
  - eauto.
  - apply (IH i Hi).
  - eauto.
  - apply (IH i Hi).
Qed.

(** *** The claims *)

(** C1.  For every batch, [do_writes] returns, and the events it adds to
    the trace are the events [D] of the dispatch phase, then the events
    [B] of the barrier phase, then one [index_write].  The writes are
    submitted in input order; every handle created in [D] is waited for in
    [B] and is signaled in [B], exactly once; the commit is the last
    event, and the only commit.  The world that [do_writes] leaves is well
    formed again. *)
Theorem do_writes_commits_after_barrier writes acct w :
  one_token_per_write -> wf_world w ->
  exists w' D B ops,
    do_writes writes acct w = Done tt w' /\
    trace w' = trace w ++ D ++ B ++ [EvIndexWrite ops acct] /\
    Forall (fun e => is_dispatch_event e = true) D /\
    Forall (fun e => is_barrier_event e = true) B /\
    map (fun x => x.1.1) (block_writes_of D) =
      map (fun bi => [write_info bi.1 bi.2]) (omap update_block_of writes) /\
    length (news_of D) = length (omap update_block_of writes) /\
    waits_of B = news_of D /\
    (forall c, c ∈ news_of D -> c ∈ pulses_of B) /\
    NoDup (pulses_of B) /\
    commits_of (D ++ B ++ [EvIndexWrite ops acct]) = [ops] /\
    wf_world w'.
Proof.
  intros Hone Hwf.
  destruct (do_writes_trace writes acct w Hone Hwf)
    as (os & D & objs & B & w' & Hd & Hrun & Ht & HB & Hw & _ & Hnd & Hp
        & Hwf').
  exists w', D, B, os.
  rewrite (dispatched_news _ _ _ _ _ _ Hd).
  destruct Hwf' as [Hnd' Hfl'].
  repeat split; try done.
  - by eapply dispatched_events.
  - by eapply dispatched_block_writes.
  - rewrite length_seq. clear -Hd.
    induction Hd; simpl; try done. by f_equal.
  - destruct (dispatched_quiet _ _ _ _ _ _ Hd) as (_ & _ & _ & HcD).
    destruct (barrier_no_commits B HB) as (HcB & _).
    unfold commits_of in *. by rewrite !omap_app, HcD, HcB.
Qed.

Lemma dispatched_launch_tokens acct h writes os D objs :
  dispatched acct h writes os D objs ->
  launches_of D = omap launch_of (zip writes os).
Proof.
  intros Hd.
  induction Hd as [|? ? ? ? ? [?|]| |]; simpl; try done;
    unfold launches_of in *; simpl; by f_equal.
Qed.

(** C2.  A DELETE descriptor: [perform_write] sets the token of the index
    update to the null token and its recency to the invalid sentinel,
    whatever the update held before, and changes neither the world (no
    physical write, no event) nor the vector of handles; and the update
    that [do_writes] commits at the position of the descriptor is that
    one. *)
Theorem delete_index_update writes acct w i write :
  one_token_per_write -> wf_world w ->
  writes !! i = Some write -> action write = DELETE ->
  (forall a conds op w0,
     perform_write write a conds op w0 =
       Done (conds, {| op_block_id := op_block_id op;
                       op_token := Some counted_null;
                       op_recency := Some repli_timestamp_invalid |}) w0) /\
  exists w' D B ops,
    do_writes writes acct w = Done tt w' /\
    trace w' = trace w ++ D ++ B ++ [EvIndexWrite ops acct] /\
    ops !! i = Some {| op_block_id := block_id write;
                       op_token := Some counted_null;
                       op_recency := Some repli_timestamp_invalid |}.
Proof.
  intros Hone Hwf Hi Hact. split.
  - intros a conds op w0. unfold perform_write. by rewrite Hact.
  - destruct (do_writes_trace writes acct w Hone Hwf)
      as (os & D & objs & B & w' & Hd & Hrun & Ht & _).
    destruct (dispatched_lookup _ _ _ _ _ _ _ _ Hd Hi)
      as (op & Hop & Hid & Hfields).
    rewrite Hact in Hfields. destruct Hfields as [Htok Hrec].
    exists w', D, B, os. repeat split; try done.
    rewrite Hop. f_equal. destruct op; simpl in *. congruence.
Qed.

(** C3.  A TOUCH descriptor: [perform_write] assigns the recency of the
    index update and nothing else: the token field keeps the value it
    had, the world is unchanged (no physical write, no event) and so is
    the vector of handles; in the update that [do_writes] commits at the
    position of the descriptor the token was never assigned. *)
Theorem touch_index_update writes acct w i write r :
  one_token_per_write -> wf_world w ->
  writes !! i = Some write -> action write = TOUCH r ->
  (forall a conds op w0,
     perform_write write a conds op w0 =
       Done (conds, {| op_block_id := op_block_id op;
                       op_token := op_token op;
                       op_recency := Some r |}) w0) /\
  exists w' D B ops,
    do_writes writes acct w = Done tt w' /\
    trace w' = trace w ++ D ++ B ++ [EvIndexWrite ops acct] /\
    ops !! i = Some {| op_block_id := block_id write;
                       op_token := None;
                       op_recency := Some r |}.
Proof.
  intros Hone Hwf Hi Hact. split.
  - intros a conds op w0. unfold perform_write. by rewrite Hact.
  - destruct (do_writes_trace writes acct w Hone Hwf)
      as (os & D & objs & B & w' & Hd & Hrun & Ht & _).
    destruct (dispatched_lookup _ _ _ _ _ _ _ _ Hd Hi)
      as (op & Hop & Hid & Hfields).
    rewrite Hact in Hfields. destruct Hfields as [Htok Hrec].
    exists w', D, B, os. repeat split; try done.
    rewrite Hop. f_equal. destruct op; simpl in *. congruence.
Qed.

(** C4.  An UPDATE descriptor, under the assumption of one token per
    submitted write: [perform_write] never fails its [guarantee]; it
    submits one physical write of one block, the physical layer issues
    one token [t] for it, and [t] is the token of the index update.  In
    [do_writes] that write is submitted in the dispatch phase, before the
    commit, there are as many physical writes as UPDATE descriptors, and
    the update committed at the position of the descriptor carries
    [t]. *)
Theorem update_issues_one_token writes acct w i write buf r iocb lcb :
  one_token_per_write -> wf_world w ->
  writes !! i = Some write -> action write = UPDATE buf r iocb lcb ->
  (forall a conds op w0, exists t w1 T,
     perform_write write a conds op w0 =
       Done (conds ++ [length (heap w0)],
             {| op_block_id := op_block_id op; op_token := Some t;
                op_recency := Some r |}) w1 /\
     snd (ser_block_writes (phys_state w0)
            [write_info buf (op_block_id op)] a) = [t] /\
     trace w1 = trace w0 ++ T /\
     block_writes_of T =
       [([write_info buf (op_block_id op)], length (heap w0), [t])]) /\
  exists w' D B ops t c,
    do_writes writes acct w = Done tt w' /\
    trace w' = trace w ++ D ++ B ++ [EvIndexWrite ops acct] /\
    ([write_info buf (block_id write)], c, [t]) ∈ block_writes_of D /\
    length (block_writes_of D) = length (omap update_block_of writes) /\
    block_writes_of B = [] /\
    ops !! i = Some {| op_block_id := block_id write; op_token := Some t;
                       op_recency := Some r |}.
Proof.
  intros Hone Hwf Hi Hact. split.
  - intros a conds op w0.
    destruct (one_token_singleton (phys_state w0)
                (write_info buf (op_block_id op)) a Hone) as [t Ht].
    assert (write = make_update (block_id write) r buf iocb lcb) as ->.
    { destruct write; simpl in *. by subst. }
    rewrite (perform_write_update _ _ _ _ _ _ _ _ _ t) by exact Ht.
    eexists t, _, _. split; [reflexivity|]. split; [exact Ht|].
    split; [reflexivity|]. by destruct lcb.
  - destruct (do_writes_trace writes acct w Hone Hwf)
      as (os & D & objs & B & w' & Hd & Hrun & Ht & HB & _).
    destruct (dispatched_lookup _ _ _ _ _ _ _ _ Hd Hi)
      as (op & Hop & Hid & Hfields).
    rewrite Hact in Hfields.
    destruct Hfields as (Hrec & t & c & Htok & Hbw & _).
    exists w', D, B, os, t, c. repeat split; try done.
    + rewrite <- (length_map (fun x => x.1.1) (block_writes_of D)).
      rewrite (dispatched_block_writes _ _ _ _ _ _ Hd). by rewrite length_map.
    + by destruct (barrier_no_commits B HB) as (_ & _ & _ & ?).
    + rewrite Hop. f_equal. destruct op; simpl in *. congruence.
Qed.

(** C5.  The launch callbacks of a batch are invoked in the dispatch
    phase, one per UPDATE descriptor that has one, in the order of the
    descriptors, each with the token of its descriptor's index update;
    none is invoked later; [do_writes] returns after all of them. *)
Theorem launch_callbacks_in_order writes acct w :
  one_token_per_write -> wf_world w ->
  exists w' D B ops,
    do_writes writes acct w = Done tt w' /\
    trace w' = trace w ++ D ++ B ++ [EvIndexWrite ops acct] /\
    Forall (fun e => is_dispatch_event e = true) D /\
    Forall (fun e => is_barrier_event e = true) B /\
    map fst (launches_of D) = omap launch_callback_of writes /\
    launches_of D = omap launch_of (zip writes ops) /\
    launches_of (B ++ [EvIndexWrite ops acct]) = [].
Proof.
  intros Hone Hwf.
  destruct (do_writes_trace writes acct w Hone Hwf)
    as (os & D & objs & B & w' & Hd & Hrun & Ht & HB & _).
  exists w', D, B, os. repeat split; try done.
  - by eapply dispatched_events.
  - by eapply dispatched_launches.
  - by eapply dispatched_launch_tokens.
  - destruct (barrier_no_commits B HB) as (_ & HlB & _).
    unfold launches_of in *. by rewrite omap_app, HlB.
Qed.

Lemma pulse_signaled c o w :
  heap w !! c = Some o -> pulsed o = true -> pulse c w = Crash.
Proof.
  intros Hc Hp. unfold pulse, deref. run. rewrite Hc.
  destruct (live o); [|done]. by rewrite Hp.
Qed.

(** C6.  A completion delivered to a [write_cond_t] that is alive and
    not signaled yet: [on_io_complete] returns; it adds to the trace the
    call of the caller-supplied callback, if there is one (nothing if it
    is null), and after it one pulse of the handle itself; the handle is
    signaled afterwards.  The latch cannot be signaled twice: a second
    completion on the handle aborts. *)
Theorem write_cond_on_io_complete_order c o callback w :
  heap w !! c = Some o -> cls o = write_cond_t callback ->
  live o = true -> pulsed o = false ->
  exists w',
    on_io_complete c w = Done tt w' /\
    write_cond_on_io_complete c callback w = Done tt w' /\
    trace w' = trace w ++
      match callback with Some cb => [EvIoCallback cb] | None => [] end
      ++ [EvPulse c] /\
    pulses_of (match callback with Some cb => [EvIoCallback cb] | None => [] end
               ++ [EvPulse c]) = [c] /\
    heap w' !! c = Some {| cls := cls o; pulsed := true; live := true |} /\
    write_cond_on_io_complete c callback w' = Crash.
Proof.
  intros Hc Hk Hl Hp.
  pose proof (on_io_complete_spec c o w Hc Hl Hp) as Hrun.
  eexists. split; [exact Hrun|].
  assert (Hin : (c < length (heap w))%nat) by by eapply lookup_lt_Some.
  split; [|split; [|split; [|split]]].
  - rewrite <- Hrun. unfold on_io_complete, bind at 1, deref.
    by rewrite Hc, Hl, Hk.
  - simpl. by rewrite Hk.
  - by destruct callback.
  - simpl. rewrite list_lookup_insert_eq by done. by rewrite Hl.
  - unfold write_cond_on_io_complete, iocallback_on_io_complete.
    destruct callback; run;
      (erewrite pulse_signaled; [done| |];
       [simpl; by apply list_lookup_insert_eq|done]).
Qed.

(** C7.  The list that [do_writes] commits has one index update per
    descriptor, in the order of the batch, each with the block identifier
    of its descriptor; descriptors with the same block identifier keep
    their own entries.  It is committed once. *)
Theorem index_updates_one_per_descriptor writes acct w :
  one_token_per_write -> wf_world w ->
  exists w' T ops,
    do_writes writes acct w = Done tt w' /\
    trace w' = trace w ++ T ++ [EvIndexWrite ops acct] /\
    commits_of T = [] /\
    length ops = length writes /\
    map op_block_id ops = map block_id writes /\
    (forall i write, writes !! i = Some write ->
       exists op, ops !! i = Some op /\ op_block_id op = block_id write).
Proof.
  intros Hone Hwf.
  destruct (do_writes_trace writes acct w Hone Hwf)
    as (os & D & objs & B & w' & Hd & Hrun & Ht & HB & _).
  exists w', (D ++ B), os. repeat split; try done.
  - by rewrite Ht, <- !app_assoc.
  - destruct (dispatched_quiet _ _ _ _ _ _ Hd) as (_ & _ & _ & HcD).
    destruct (barrier_no_commits B HB) as (HcB & _).
    unfold commits_of in *. by rewrite omap_app, HcD, HcB.
  - by eapply dispatched_length.
  - by eapply dispatched_block_ids.
  - intros i write Hi.
    destruct (dispatched_lookup _ _ _ _ _ _ _ _ Hd Hi) as (op & ? & ? & _).
    eauto.
Qed.

(** C10.  The empty batch: [do_writes] returns; it creates no handle and
    submits no physical write (the heap and the writes in flight are
    unchanged), and it adds one event to the trace, the commit of the
    empty list of index updates. *)
Theorem do_writes_empty_batch acct w :
  do_writes [] acct w =
    Done tt {| phys_state := ser_index_write (phys_state w) [] acct;
               heap := heap w; inflight := inflight w; sched := sched w;
               trace := trace w ++ [EvIndexWrite [] acct] |}.
Proof. reflexivity. Qed.

(** *** Runs that differ in the class of a handle only *)

Lemma sim_lookup (ha hb : list cond_obj) c :
  Forall2 obj_sim ha hb ->
  (ha !! c = None /\ hb !! c = None) \/
  (exists o o', ha !! c = Some o /\ hb !! c = Some o' /\ obj_sim o o').
Proof.
  intros H. destruct (ha !! c) as [o|] eqn:Ha.
  - destruct (Forall2_lookup_l _ _ _ _ _ H Ha) as (o' & ? & ?). eauto 8.
  - left. split; [done|]. apply lookup_ge_None.
    rewrite <- (Forall2_length _ _ _ H). by apply lookup_ge_None.
Qed.

Lemma sim_emit ta tb wa wb e :
  sim ta tb wa wb -> sim ta tb (emit e wa) (emit e wb).
Proof.
  intros (? & ? & ? & ? & T & Ha & Hb). repeat split; try done.
  exists (T ++ [e]). simpl. by rewrite Ha, Hb, !app_assoc.
Qed.

Lemma pulse_sim ta tb wa wb c :
  sim ta tb wa wb -> sim_outcome ta tb (pulse c wa) (pulse c wb).
Proof.
  intros (Hp & Hi & Hs & Hh & T & Ha & Hb). unfold pulse, deref. run.
  destruct (sim_lookup _ _ c Hh) as [[-> ->]|(o & o' & -> & -> & Hpu & Hl & Hk)];
    [done|].
  rewrite <- Hl. destruct (live o) eqn:Hlo; [|done]. simpl.
  rewrite <- Hpu. destruct (pulsed o); [done|]. simpl. split; [done|].
  repeat split; simpl; try done.
  - apply Forall2_insert; [done|]. split; [done|]. simpl. split; congruence.
  - exists (T ++ [EvPulse c]). by rewrite Ha, Hb, !app_assoc.
Qed.

Lemma on_io_complete_sim ta tb wa wb c :
  sim ta tb wa wb ->
  sim_outcome ta tb (on_io_complete c wa) (on_io_complete c wb).
Proof.
  intros Hsim. pose proof Hsim as (Hp & Hi & Hs & Hh & _).
  unfold on_io_complete, bind, deref.
  destruct (sim_lookup _ _ c Hh) as [[-> ->]|(o & o' & -> & -> & Hpu & Hl & Hk)];
    [done|].
  rewrite <- Hl. destruct (live o); [|done].
  unfold write_cond_on_io_complete, local_cond_on_io_complete,
    iocallback_on_io_complete.
  destruct (cls o) as [[cb|]|], (cls o') as [[cb'|]|]; simplify_eq/=;
    unfold bind, ret, log, modify; try (by apply pulse_sim).
  by apply pulse_sim, sim_emit.
Qed.

Lemma deliver_one_sim ta tb wa wb :
  sim ta tb wa wb -> sim_outcome ta tb (deliver_one wa) (deliver_one wb).
Proof.
  intros (Hp & Hi & Hs & Hh & T & Ha & Hb).
  unfold deliver_one, bind, get. rewrite <- Hi, <- Hs.
  destruct (inflight wa !! _) as [c|]; [|done]. run.
  apply on_io_complete_sim. repeat split; simpl; eauto; congruence.
Qed.

Lemma wait_loop_unfold fuel c w :
  wait_loop fuel c w =
    match heap w !! c with
    | Some o =>
        if live o then
          if pulsed o then Done tt w
          else match fuel with
               | O => Stuck
               | S fuel' =>
                   match deliver_one w with
                   | Done _ w' => wait_loop fuel' c w'
                   | Crash => Crash
                   | Stuck => Stuck
                   end
               end
        else Crash
    | None => Crash
    end.
Proof.
  destruct fuel; cbn [wait_loop]; unfold bind, deref, ret;
    (destruct (heap w !! c) as [o|]; [|done]);
    (destruct (live o); [|done]); by destruct (pulsed o).
Qed.

Lemma wait_loop_sim ta tb fuel c wa wb :
  sim ta tb wa wb ->
  sim_outcome ta tb (wait_loop fuel c wa) (wait_loop fuel c wb).
Proof.
  revert wa wb. induction fuel as [|fuel IH]; intros wa wb Hsim;
    pose proof Hsim as (Hp & Hi & Hs & Hh & _);
    rewrite !wait_loop_unfold;
    (destruct (sim_lookup _ _ c Hh)
       as [[-> ->]|(o & o' & -> & -> & Hpu & Hl & Hk)]; [done|]);
    rewrite <- Hl, <- Hpu; (destruct (live o); [|done]);
    (destruct (pulsed o); [done|]); [done|].
  pose proof (deliver_one_sim _ _ _ _ Hsim) as Hd.
  destruct (deliver_one wa) as [[] wa'| |], (deliver_one wb) as [[] wb'| |];
    try done.
  destruct Hd as [_ Hd]. by apply IH.
Qed.

Lemma wait_sim ta tb c wa wb :
  sim ta tb wa wb -> sim_outcome ta tb (wait c wa) (wait c wb).
Proof.
  intros Hsim. pose proof Hsim as (Hp & Hi & Hs & Hh & _).
  unfold wait, bind, get. rewrite <- Hi.
  pose proof (wait_loop_sim _ _ (length (inflight wa)) c _ _ Hsim) as Hw.
  destruct (wait_loop _ c wa) as [[] wa'| |], (wait_loop _ c wb) as [[] wb'| |];
    try done.
  destruct Hw as [_ Hw]. split; [done|]. by apply sim_emit.
Qed.

Lemma delete_cond_sim ta tb c wa wb :
  sim ta tb wa wb ->
  sim_outcome ta tb (delete_cond c wa) (delete_cond c wb).
Proof.
  intros (Hp & Hi & Hs & Hh & T & Ha & Hb). unfold delete_cond, deref. run.
  destruct (sim_lookup _ _ c Hh) as [[-> ->]|(o & o' & -> & -> & Hpu & Hl & Hk)];
    [done|].
  rewrite <- Hl. destruct (live o) eqn:Hlo; [|done]. simpl. split; [done|].
  repeat split; simpl; try done.
  - apply Forall2_insert; [done|]. split; [done|]. simpl. split; congruence.
  - exists (T ++ [EvDelete c]). by rewrite Ha, Hb, !app_assoc.
Qed.

(** C8, as the code has it.  The token of an UPDATE is attached in the
    dispatch phase: in the list of index updates that the dispatch loop
    returns, before any handle has been signaled, the update of an UPDATE
    descriptor carries the token [t] that [block_writes] issued for it.
    The barrier phase changes no index update: the list that is committed
    is the list that the dispatch loop returned. *)
Theorem update_token_attached_at_dispatch writes acct w i write buf r iocb lcb :
  one_token_per_write -> wf_world w ->
  writes !! i = Some write -> action write = UPDATE buf r iocb lcb ->
  exists cs os w1 w' D B t c,
    dispatch_loop writes acct [] [] w = Done (cs, os) w1 /\
    trace w1 = trace w ++ D /\
    pulses_of D = [] /\
    ([write_info buf (block_id write)], c, [t]) ∈ block_writes_of D /\
    os !! i = Some {| op_block_id := block_id write; op_token := Some t;
                      op_recency := Some r |} /\
    do_writes writes acct w = Done tt w' /\
    trace w' = trace w ++ D ++ B ++ [EvIndexWrite os acct] /\
    Forall (fun e => is_barrier_event e = true) B.
Proof.
  intros Hone Hwf Hi Hact.
  destruct (do_writes_spec writes acct w Hone Hwf)
    as (os & D & objs & B & w1 & w2 & Hd & Hrun1 & Ht1 & Hi1 & Hwf1 & Hcs1
        & Hrun2 & Hbar & Hwf2 & Hrun).
  destruct (dispatched_lookup _ _ _ _ _ _ _ _ Hd Hi)
    as (op & Hop & Hid & Hfields).
  rewrite Hact in Hfields.
  destruct Hfields as (Hrec & t & c & Htok & Hbw & _).
  destruct (dispatched_quiet _ _ _ _ _ _ Hd) as (HpD & _).
  eexists _, os, w1, _, D, B, t, c.
  split; [exact Hrun1|]. split; [done|]. split; [done|]. split; [done|].
  split. { rewrite Hop. f_equal. destruct op; simpl in *. congruence. }
  split; [exact Hrun|]. simpl.
  split. { by rewrite (barrier_trace _ _ _ _ Hbar), Ht1, <- !app_assoc. }
  by destruct Hbar.
Qed.

(** C9, as the code has it.  [serializer_block_write] submits one
    physical write, waits for its completion and returns the one token
    [t] issued for it.  Up to the class of the handle it runs in step
    with [do_writes] on the batch of one UPDATE of the same block without
    callbacks: the same write is submitted, the same completions are
    delivered, and [t] is the token of that batch's index update.  But
    [serializer_block_write] never calls [index_write]: the state that
    [do_writes] leaves is the commit of that index update applied to the
    state that [serializer_block_write] leaves. *)
Theorem block_write_without_commit buf id r acct w :
  one_token_per_write -> wf_world w ->
  exists t w1 w2 B,
    let c := length (heap w) in
    let op := {| op_block_id := id; op_token := Some t;
                 op_recency := Some r |} in
    serializer_block_write buf id acct w = Done t w1 /\
    block_write_via_batch buf id r None None acct w = Done tt w2 /\
    snd (ser_block_writes (phys_state w) [write_info buf id] acct) = [t] /\
    trace w1 = trace w ++
      [EvNew c local_cond_t; EvBlockWrites [write_info buf id] acct c [t]]
      ++ B ++ [EvWait c; EvDelete c] /\
    trace w2 = trace w ++
      [EvNew c (write_cond_t None);
       EvBlockWrites [write_info buf id] acct c [t]]
      ++ B ++ [EvWait c; EvDelete c] ++ [EvIndexWrite [op] acct] /\
    Forall (fun e => is_completion_event e = true) B /\
    c ∈ pulses_of B /\
    phys_state w1 =
      fst (ser_block_writes (phys_state w) [write_info buf id] acct) /\
    phys_state w2 = ser_index_write (phys_state w1) [op] acct /\
    inflight w2 = inflight w1 /\ sched w2 = sched w1 /\
    Forall2 obj_sim (heap w1) (heap w2).
Proof.
  intros Hone Hwf.
  destruct (one_token_singleton (phys_state w) (write_info buf id) acct Hone)
    as [t Ht].
  set (c := length (heap w)).
  set (p1 := fst (ser_block_writes (phys_state w) [write_info buf id] acct)).
  set (ta := trace w ++ [EvNew c local_cond_t;
                         EvBlockWrites [write_info buf id] acct c [t]]).
  set (tb := trace w ++ [EvNew c (write_cond_t None);
                         EvBlockWrites [write_info buf id] acct c [t]]).
  set (wa0 := {| phys_state := p1;
                 heap := heap w ++ [fresh_cond local_cond_t];
                 inflight := inflight w ++ seq c 1; sched := sched w;
                 trace := ta |}).
  set (wb0 := {| phys_state := p1;
                 heap := heap w ++ [fresh_cond (write_cond_t None)];
                 inflight := inflight w ++ seq c 1; sched := sched w;
                 trace := tb |}).
  assert (Hsim0 : sim ta tb wa0 wb0).
  { repeat split; simpl; try done.
    - apply Forall2_app; [|by repeat constructor].
      apply Forall_Forall2_diag, Forall_true. by intros [].
    - exists []. by rewrite !app_nil_r. }
  destruct (dispatch_ready w [fresh_cond local_cond_t] p1 ta Hwf)
    as (Hwfa & [_ Hca] & _); [by repeat constructor|].
  fold c wa0 in Hwfa, Hca.
  destruct (Hca c) as (o & Ho & Hl & Hpi); [by left|].
  assert (o = fresh_cond local_cond_t) as ->.
  { simpl in Ho. rewrite lookup_app_r, Nat.sub_diag in Ho by done.
    by injection Ho. }
  destruct (wait_spec wa0 c _ Hwfa Ho Hl Hpi)
    as (B & wa1 & Hwait & Hcomp & Hwfa1 & Hp1).
  pose proof (completed_heap _ _ _ Hcomp _ _ Ho) as Ho1.
  rewrite Hp1 in Ho1. simpl in Ho1.
  pose proof (delete_cond_spec c _ (emit (EvWait c) wa1) Ho1 eq_refl) as Hdel.
  (* the batch runs in step *)
  pose proof (wait_sim _ _ c _ _ Hsim0) as Hwb. rewrite Hwait in Hwb.
  destruct (wait c wb0) as [[] wb1| |] eqn:Hwaitb; try done.
  destruct Hwb as [_ Hsim1].
  pose proof (delete_cond_sim _ _ c _ _ Hsim1) as Hdb. rewrite Hdel in Hdb.
  destruct (delete_cond c wb1) as [[] wb2| |] eqn:Hdelb; try done.
  destruct Hdb as (_ & Hp2 & Hi2 & Hs2 & Hh2 & T & HTa & HTb).
  simpl in Hp2, Hi2, Hs2, Hh2, HTa.
  rewrite (completed_trace _ _ _ Hcomp) in HTa. simpl in HTa.
  rewrite <- !app_assoc in HTa. apply app_inv_head in HTa. subst T.
  eexists t, _, _, B. cbn zeta.
  split.
  { unfold serializer_block_write, new_cond, block_writes. run.
    fold (write_info buf id). rewrite Ht. simpl.
    rewrite <- app_assoc.
    match goal with |- context [wait _ ?x] => change x with wa0 end.
    fold c. rewrite Hwait. rewrite Hdel. reflexivity. }
  split.
  { unfold block_write_via_batch, do_writes, assert_thread, index_write.
    cbn [dispatch_loop]. unfold bind at 1 2 3, ret at 1.
    rewrite (perform_write_update _ _ _ _ _ _ _ _ _ t) by exact Ht.
    cbn [fst snd index_write_op_init op_block_id set_token set_recency
         op_token op_recency block_id make_update launch_events app].
    unfold ret at 1. cbn [fst snd wait_all].
    match goal with |- bind _ _ ?x = _ => change x with wb0 end.
    fold c. unfold bind at 1 2. rewrite Hwaitb. unfold bind at 1. rewrite Hdelb.
    run. reflexivity. }
  split; [exact Ht|]. simpl.
  split.
  { rewrite (completed_trace _ _ _ Hcomp). simpl. unfold ta.
    by rewrite <- !app_assoc. }
  split. { rewrite HTb. unfold tb. by rewrite <- !app_assoc. }
  split; [by destruct Hcomp|].
  split. { simpl in Hp1. by apply bool_decide_eq_true in Hp1. }
  split. { by rewrite (completed_phys _ _ _ Hcomp). }
  split. { by rewrite <- Hp2. }
  done.
Qed.

End Proofs.

(** ** The claims on the demo serializer *)

Import Demo.

Lemma demo_one_token : one_token_per_write (ser := demo_ser).
Proof. intros p infos acct. simpl. unfold demo_tokens. apply length_imap. Qed.

Lemma demo_wf_w0 : wf_world w0.
Proof. split; simpl; [constructor|]. intros c Hc. by apply elem_of_nil in Hc. Qed.

Lemma demo_wf_busy : wf_world w_busy.
Proof.
  split; simpl; [apply NoDup_singleton|].
  intros c ->%list_elem_of_singleton. eexists. by repeat split.
Qed.

Lemma do_writes_commits_after_barrier_witness :
  one_token_per_write (ser := demo_ser) /\ wf_world w_busy /\
  exists w' D B ops,
    do_writes batch_same 5%N w_busy = Done tt w' /\
    trace w' = trace w_busy ++ D ++ B ++ [EvIndexWrite ops 5%N] /\
    Forall (fun e => is_dispatch_event e = true) D /\
    Forall (fun e => is_barrier_event e = true) B /\
    map (fun x => x.1.1) (block_writes_of D) =
      map (fun bi => [write_info bi.1 bi.2])
        (omap update_block_of batch_same) /\
    length (news_of D) = length (omap update_block_of batch_same) /\
    waits_of B = news_of D /\
    (forall c, c ∈ news_of D -> c ∈ pulses_of B) /\
    NoDup (pulses_of B) /\
    commits_of (D ++ B ++ [EvIndexWrite ops 5%N]) = [ops] /\
    wf_world w'.
Proof.
  split; [exact demo_one_token|]. split; [exact demo_wf_busy|].
  exact (do_writes_commits_after_barrier batch_same 5%N w_busy
           demo_one_token demo_wf_busy).
Defined.

Lemma delete_index_update_witness :
  one_token_per_write (ser := demo_ser) /\ wf_world w_busy /\
  batch3 !! 1%nat = Some (make_delete 2%N) /\
  action (make_delete 2%N) = DELETE /\
  (forall a conds op (w0 : world demo_phys),
     perform_write (make_delete 2%N) a conds op w0 =
       Done (conds, {| op_block_id := op_block_id op;
                       op_token := Some counted_null;
                       op_recency := Some repli_timestamp_invalid |}) w0) /\
  exists w' D B ops,
    do_writes batch3 5%N w_busy = Done tt w' /\
    trace w' = trace w_busy ++ D ++ B ++ [EvIndexWrite ops 5%N] /\
    ops !! 1%nat = Some {| op_block_id := 2%N;
                           op_token := Some counted_null;
                           op_recency := Some repli_timestamp_invalid |}.
Proof.
  split; [exact demo_one_token|]. split; [exact demo_wf_busy|].
  split; [reflexivity|]. split; [reflexivity|].
  exact (delete_index_update batch3 5%N w_busy 1%nat (make_delete 2%N)
           demo_one_token demo_wf_busy eq_refl eq_refl).
Defined.

Lemma touch_index_update_witness :
  one_token_per_write (ser := demo_ser) /\ wf_world w_busy /\
  batch3 !! 2%nat = Some (make_touch 3%N t9) /\
  action (make_touch 3%N t9) = TOUCH t9 /\
  (forall a conds op (w0 : world demo_phys),
     perform_write (make_touch 3%N t9) a conds op w0 =
       Done (conds, {| op_block_id := op_block_id op;
                       op_token := op_token op;
                       op_recency := Some t9 |}) w0) /\
  exists w' D B ops,
    do_writes batch3 5%N w_busy = Done tt w' /\
    trace w' = trace w_busy ++ D ++ B ++ [EvIndexWrite ops 5%N] /\
    ops !! 2%nat = Some {| op_block_id := 3%N; op_token := None;
                           op_recency := Some t9 |}.
Proof.
  split; [exact demo_one_token|]. split; [exact demo_wf_busy|].
  split; [reflexivity|]. split; [reflexivity|].
  exact (touch_index_update batch3 5%N w_busy 2%nat (make_touch 3%N t9) t9
           demo_one_token demo_wf_busy eq_refl eq_refl).
Defined.

Lemma update_issues_one_token_witness :
  one_token_per_write (ser := demo_ser) /\ wf_world w_busy /\
  batch3 !! 0%nat = Some (make_update 1%N t5 1000 (Some 70%N) (Some 80%N)) /\
  action (make_update 1%N t5 1000 (Some 70%N) (Some 80%N))
    = UPDATE 1000 t5 (Some 70%N) (Some 80%N) /\
  (forall a conds op (w0 : world demo_phys), exists t w1 T,
     perform_write (make_update 1%N t5 1000 (Some 70%N) (Some 80%N))
       a conds op w0 =
       Done (conds ++ [length (heap w0)],
             {| op_block_id := op_block_id op; op_token := Some t;
                op_recency := Some t5 |}) w1 /\
     snd (ser_block_writes (phys_state w0)
            [write_info 1000 (op_block_id op)] a) = [t] /\
     trace w1 = trace w0 ++ T /\
     block_writes_of T =
       [([write_info 1000 (op_block_id op)], length (heap w0), [t])]) /\
  exists w' D B ops t c,
    do_writes batch3 5%N w_busy = Done tt w' /\
    trace w' = trace w_busy ++ D ++ B ++ [EvIndexWrite ops 5%N] /\
    ([write_info 1000 1%N], c, [t]) ∈ block_writes_of D /\
    length (block_writes_of D) = length (omap update_block_of batch3) /\
    block_writes_of B = [] /\
    ops !! 0%nat = Some {| op_block_id := 1%N; op_token := Some t;
                           op_recency := Some t5 |}.
Proof.
  split; [exact demo_one_token|]. split; [exact demo_wf_busy|].
  split; [reflexivity|]. split; [reflexivity|].
  exact (update_issues_one_token batch3 5%N w_busy 0%nat _ _ _ _ _
           demo_one_token demo_wf_busy eq_refl eq_refl).
Defined.

Lemma launch_callbacks_in_order_witness :
  one_token_per_write (ser := demo_ser) /\ wf_world w_busy /\
  exists w' D B ops,
    do_writes batch_same 5%N w_busy = Done tt w' /\
    trace w' = trace w_busy ++ D ++ B ++ [EvIndexWrite ops 5%N] /\
    Forall (fun e => is_dispatch_event e = true) D /\
    Forall (fun e => is_barrier_event e = true) B /\
    map fst (launches_of D) = omap launch_callback_of batch_same /\
    launches_of D = omap launch_of (zip batch_same ops) /\
    launches_of (B ++ [EvIndexWrite ops 5%N]) = [].
Proof.
  split; [exact demo_one_token|]. split; [exact demo_wf_busy|].
  exact (launch_callbacks_in_order batch_same 5%N w_busy
           demo_one_token demo_wf_busy).
Defined.

Lemma write_cond_on_io_complete_order_witness :
  heap w_busy !! 0%nat = Some (fresh_cond (write_cond_t (Some 99%N))) /\
  cls (fresh_cond (write_cond_t (Some 99%N))) = write_cond_t (Some 99%N) /\
  live (fresh_cond (write_cond_t (Some 99%N))) = true /\
  pulsed (fresh_cond (write_cond_t (Some 99%N))) = false /\
  exists w',
    on_io_complete 0%nat w_busy = Done tt w' /\
    write_cond_on_io_complete 0%nat (Some 99%N) w_busy = Done tt w' /\
    trace w' = trace w_busy ++ [EvIoCallback 99%N] ++ [EvPulse 0%nat] /\
    pulses_of ([EvIoCallback 99%N] ++ [EvPulse 0%nat]) = [0%nat] /\
    heap w' !! 0%nat =
      Some {| cls := write_cond_t (Some 99%N); pulsed := true;
              live := true |} /\
    write_cond_on_io_complete 0%nat (Some 99%N) w' = Crash.
Proof.
  split; [reflexivity|]. split; [reflexivity|]. split; [reflexivity|].
  split; [reflexivity|].
  exact (write_cond_on_io_complete_order 0%nat
           (fresh_cond (write_cond_t (Some 99%N))) (Some 99%N) w_busy
           eq_refl eq_refl eq_refl eq_refl).
Defined.

Lemma index_updates_one_per_descriptor_witness :
  one_token_per_write (ser := demo_ser) /\ wf_world w0 /\
  exists w' T ops,
    do_writes batch_same 5%N w0 = Done tt w' /\
    trace w' = trace w0 ++ T ++ [EvIndexWrite ops 5%N] /\
    commits_of T = [] /\
    length ops = length batch_same /\
    map op_block_id ops = map block_id batch_same /\
    (forall i write, batch_same !! i = Some write ->
       exists op, ops !! i = Some op /\ op_block_id op = block_id write).
Proof.
  split; [exact demo_one_token|]. split; [exact demo_wf_w0|].
  exact (index_updates_one_per_descriptor batch_same 5%N w0
           demo_one_token demo_wf_w0).
Defined.

(** Two UPDATEs of block [7] in one batch: both index updates are
    committed, in the order of the batch. *)
Example two_updates_same_block_retained :
  exists w',
    do_writes batch_same 5%N w0 = Done tt w' /\
    commits_of (trace w') =
      [[ {| op_block_id := 7%N;
            op_token := Some (Some {| tok_offset := 0; tok_size := 4096 |});
            op_recency := Some t5 |};
         {| op_block_id := 7%N;
            op_token := Some (Some {| tok_offset := 4096; tok_size := 4096 |});
            op_recency := Some t9 |} ]].
Proof. eexists. split; vm_compute; reflexivity. Qed.

(** C8, as stated, fails: after the dispatch loop, before any handle is
    signaled, the index update of the UPDATE carries its token. *)
Lemma token_not_deferred_to_barrier :
  ~ token_deferred_to_barrier
      [make_update 1%N t5 1000 (Some 70%N) (Some 80%N)] 5%N w0.
Proof.
  intros H.
  specialize (H _ _ _ 0%nat _ _ eq_refl eq_refl eq_refl eq_refl).
  discriminate H.
Qed.

Lemma update_token_attached_at_dispatch_witness :
  one_token_per_write (ser := demo_ser) /\ wf_world w_busy /\
  batch_same !! 1%nat = Some (make_update 7%N t9 9000 (Some 71%N) (Some 82%N)) /\
  action (make_update 7%N t9 9000 (Some 71%N) (Some 82%N))
    = UPDATE 9000 t9 (Some 71%N) (Some 82%N) /\
  exists cs os w1 w' D B t c,
    dispatch_loop batch_same 5%N [] [] w_busy = Done (cs, os) w1 /\
    trace w1 = trace w_busy ++ D /\
    pulses_of D = [] /\
    ([write_info 9000 7%N], c, [t]) ∈ block_writes_of D /\
    os !! 1%nat = Some {| op_block_id := 7%N; op_token := Some t;
                          op_recency := Some t9 |} /\
    do_writes batch_same 5%N w_busy = Done tt w' /\
    trace w' = trace w_busy ++ D ++ B ++ [EvIndexWrite os 5%N] /\
    Forall (fun e => is_barrier_event e = true) B.
Proof.
  split; [exact demo_one_token|]. split; [exact demo_wf_busy|].
  split; [reflexivity|]. split; [reflexivity|].
  exact (update_token_attached_at_dispatch batch_same 5%N w_busy 1%nat
           _ _ _ _ _ demo_one_token demo_wf_busy eq_refl eq_refl).
Defined.

(** C9, as stated, fails: whatever the recency and the callbacks of the
    one-element batch, [do_writes] commits an index update and
    [serializer_block_write] commits none, so the states differ. *)
Lemma block_write_state_differs :
  ~ exists r iocb lcb, same_resulting_state 1000 1%N r iocb lcb 5%N w0.
Proof.
  intros (r & iocb & lcb & t & w1 & w2 & H1 & H2 & Hp).
  vm_compute in H1. injection H1 as _ <-.
  destruct iocb, lcb; vm_compute in H2; injection H2 as <-;
    simpl in Hp; discriminate Hp.
Qed.

Lemma block_write_without_commit_witness :
  one_token_per_write (ser := demo_ser) /\ wf_world w_busy /\
  exists t w1 w2 B,
    let c := length (heap w_busy) in
    let op := {| op_block_id := 1%N; op_token := Some t;
                 op_recency := Some t5 |} in
    serializer_block_write 1000 1%N 5%N w_busy = Done t w1 /\
    block_write_via_batch 1000 1%N t5 None None 5%N w_busy = Done tt w2 /\
    snd (ser_block_writes (phys_state w_busy) [write_info 1000 1%N] 5%N)
      = [t] /\
    trace w1 = trace w_busy ++
      [EvNew c local_cond_t; EvBlockWrites [write_info 1000 1%N] 5%N c [t]]
      ++ B ++ [EvWait c; EvDelete c] /\
    trace w2 = trace w_busy ++
      [EvNew c (write_cond_t None);
       EvBlockWrites [write_info 1000 1%N] 5%N c [t]]
      ++ B ++ [EvWait c; EvDelete c] ++ [EvIndexWrite [op] 5%N] /\
    Forall (fun e => is_completion_event e = true) B /\
    c ∈ pulses_of B /\
    phys_state w1 =
      fst (ser_block_writes (phys_state w_busy) [write_info 1000 1%N] 5%N) /\
    phys_state w2 = ser_index_write (phys_state w1) [op] 5%N /\
    inflight w2 = inflight w1 /\ sched w2 = sched w1 /\
    Forall2 obj_sim (heap w1) (heap w2).
Proof.
  split; [exact demo_one_token|]. split; [exact demo_wf_busy|].
  exact (block_write_without_commit 1000 1%N t5 5%N w_busy
           demo_one_token demo_wf_busy).
Defined.

(** ** Further properties of the write path *)

Section WritePath.
Context {phys : Type} {ser : serializer_t phys} {consts : constants}.

Implicit Types (w wa wb : world phys) (c : cond_ptr) (acct : file_account_t).

Ltac run :=
  repeat progress
    (unfold bind, ret, get, modify, log, guarantee, crash,
       with_heap, with_phys, with_inflight, with_sched, emit; simpl).

(** *** Batches without UPDATE *)

Lemma dispatch_loop_no_update writes acct conds ops w :
  Forall (fun write => is_update write = false) writes ->
  exists os,
    dispatch_loop writes acct conds ops w = Done (conds, ops ++ os) w /\
    map op_block_id os = map block_id writes /\
    Forall (fun op => op_recency op <> None) os.
Proof.
  intros H. revert ops. induction H as [|write rest Hw _ IH]; intros ops.
  - exists []. by rewrite app_nil_r.
  - destruct write as [id [buf r iocb lcb| |r]]; [done| |];
      cbn [dispatch_loop]; unfold bind at 1;
      (match goal with |- context [perform_write ?x _ _ _ _] =>
         change (perform_write x) with (perform_write (make_delete id)) ||
         change (perform_write x) with (perform_write (make_touch id r))
       end);
      rewrite ?perform_write_delete, ?perform_write_touch; cbn [fst snd];
      (match goal with |- context [dispatch_loop _ _ _ ?os' _] =>
         destruct (IH os') as (os & -> & Hids & Hrec) end);
      eexists (_ :: os); rewrite <- app_assoc;
      (split; [reflexivity|]); simpl; (split; [by f_equal|]);
      by constructor.
Qed.

(** X1.  A batch of DELETE and TOUCH descriptors only: [do_writes] returns for
    every serializer and every world, with no assumption on the physical
    layer.  It creates no handle, submits no write and waits for nothing:
    the commit is the only event, and heap, writes in flight and schedule
    are as before.  The committed list has one index update per
    descriptor, with its block identifier. *)
Theorem do_writes_without_updates writes acct w :
  Forall (fun write => is_update write = false) writes ->
  exists ops,
    do_writes writes acct w =
      Done tt {| phys_state := ser_index_write (phys_state w) ops acct;
                 heap := heap w; inflight := inflight w; sched := sched w;
                 trace := trace w ++ [EvIndexWrite ops acct] |} /\
    map op_block_id ops = map block_id writes.
Proof.
  intros H.
  destruct (dispatch_loop_no_update writes acct [] [] w H)
    as (os & Hrun & Hids & _).
  exists os. split; [|done].
  unfold do_writes, assert_thread, index_write. run. by rewrite Hrun.
Qed.

(** *** A physical layer that breaks the one-token contract *)




(** *** The run of [do_writes], with its intermediate worlds *)

Lemma do_writes_run writes acct w :
  one_token_per_write -> wf_world w ->
  exists os D objs p1 B w2,
    let cs := seq (length (heap w)) (length objs) in
    let w1 := {| phys_state := p1; heap := heap w ++ objs;
                 inflight := inflight w ++ cs; sched := sched w;
                 trace := trace w ++ D |} in
    dispatched acct (length (heap w)) writes os D objs /\
    dispatch_loop writes acct [] [] w = Done (cs, os) w1 /\
    wf_world w1 /\ waitable cs w1 /\
    wait_all cs w1 = Done tt w2 /\
    barrier cs w1 B w2 /\
    wf_world w2 /\
    do_writes writes acct w =
      Done tt {| phys_state := ser_index_write (phys_state w2) os acct;
                 heap := heap w2; inflight := inflight w2;
                 sched := sched w2;
                 trace := trace w2 ++ [EvIndexWrite os acct] |}.
Proof.
  intros Hone Hwf.
  destruct (dispatch_loop_spec writes acct [] [] w Hone)
    as (os & D & objs & p1 & Hd & Hrun1).
  simpl in Hrun1.
  destruct (dispatch_ready w objs p1 (trace w ++ D) Hwf
              (dispatched_fresh _ _ _ _ _ _ Hd)) as (Hwf1 & Hcs1 & _).
  destruct (wait_all_spec _ _ Hwf1 Hcs1) as (B & w2 & Hrun2 & Hbar & Hwf2).
  exists os, D, objs, p1, B, w2. cbn zeta.
  repeat (split; [done|]).
  unfold do_writes, assert_thread, index_write. run.
  rewrite Hrun1. simpl. by rewrite Hrun2.
Qed.

Lemma dispatched_objs_length acct h writes os D objs :
  dispatched acct h writes os D objs ->
  length objs = length (omap update_block_of writes).
Proof. induction 1; simpl; by f_equal. Qed.

(** X3.  [do_writes] releases what it creates and nothing else.  On return
    the heap has one more object per UPDATE of the batch; each of these
    handles has been signaled and deleted; every object that existed
    before keeps its class and is alive exactly if it was. *)
Theorem do_writes_releases_its_handles writes acct w :
  one_token_per_write -> wf_world w ->
  exists w',
    do_writes writes acct w = Done tt w' /\
    length (heap w') =
      (length (heap w) + length (omap update_block_of writes))%nat /\
    (forall c, (length (heap w) <= c < length (heap w'))%nat ->
       exists o', heap w' !! c = Some o' /\
                  pulsed o' = true /\ live o' = false) /\
    (forall c o, heap w !! c = Some o ->
       exists o', heap w' !! c = Some o' /\
                  cls o' = cls o /\ live o' = live o).
Proof.
  intros Hone Hwf.
  destruct (do_writes_run writes acct w Hone Hwf)
    as (os & D & objs & p1 & B & w2 & Hd & Hrun1 & Hwf1 & Hcs1 & Hrun2
        & Hbar & Hwf2 & Hrun).
  cbn zeta in *. eexists. split; [exact Hrun|]. simpl.
  pose proof (barrier_length _ _ _ _ Hbar) as Hlen. simpl in Hlen.
  rewrite length_app in Hlen.
  rewrite <- (dispatched_objs_length _ _ _ _ _ _ Hd).
  split; [done|]. split.
  - intros c Hc. rewrite Hlen in Hc.
    assert (Hin : c ∈ seq (length (heap w)) (length objs)).
    { apply elem_of_seq. lia. }
    pose proof Hcs1 as [_ Hcs1'].
    destruct (Hcs1' c Hin) as (o & Ho & Hl & _).
    pose proof (barrier_heap _ _ _ _ Hbar _ _ Ho) as Ho'.
    eexists. split; [exact Ho'|]. simpl. split.
    + assert (Hp : c ∈ pulses_of B).
      { apply (barrier_signals _ _ _ _ Hbar Hcs1 Hwf2 c Hin).
        simpl. apply elem_of_app. by right. }
      by rewrite (bool_decide_eq_true_2 _ Hp), orb_true_r.
    + rewrite bool_decide_eq_false_2 by tauto. by rewrite andb_false_r.
  - intros c o Ho.
    assert (Ho1 : (heap w ++ objs) !! c = Some o) by by apply lookup_app_l_Some.
    pose proof (barrier_heap _ _ _ _ Hbar _ _ Ho1) as Ho'.
    eexists. split; [exact Ho'|]. simpl. split; [done|].
    rewrite bool_decide_eq_true_2, andb_true_r; [done|].
    intros [Hge _]%elem_of_seq. apply lookup_lt_Some in Ho. lia.
Qed.

(** X4.  On return from [do_writes] no write of the batch is in flight any
    more, and nothing was added to the writes in flight: they are the
    ones that were in flight before, without those that completed
    meanwhile. *)
Theorem do_writes_leaves_nothing_in_flight writes acct w :
  one_token_per_write -> wf_world w ->
  exists w' D B ops,
    do_writes writes acct w = Done tt w' /\
    trace w' = trace w ++ D ++ B ++ [EvIndexWrite ops acct] /\
    pulses_of B ++ inflight w' ≡ₚ inflight w ++ news_of D /\
    (forall c, c ∈ news_of D -> c ∉ inflight w') /\
    (forall c, c ∈ inflight w' -> c ∈ inflight w).
Proof.
  intros Hone Hwf.
  destruct (do_writes_run writes acct w Hone Hwf)
    as (os & D & objs & p1 & B & w2 & Hd & Hrun1 & Hwf1 & Hcs1 & Hrun2
        & Hbar & Hwf2 & Hrun).
  cbn zeta in *. eexists _, D, B, os. split; [exact Hrun|]. simpl.
  rewrite (dispatched_news _ _ _ _ _ _ Hd).
  pose proof (barrier_inflight _ _ _ _ Hbar) as Hperm. simpl in Hperm.
  assert (Hgone : forall c, c ∈ seq (length (heap w)) (length objs) ->
                            c ∉ inflight w2).
  { intros c Hin Hfl. pose proof Hcs1 as [_ Hcs1'].
    destruct (Hcs1' c Hin) as (o & Ho & _).
    destruct Hwf2 as [_ Hwf2']. destruct (Hwf2' c Hfl) as (o' & Ho' & _ & Hl').
    rewrite (barrier_heap _ _ _ _ Hbar _ _ Ho) in Ho'.
    injection Ho' as <-. simpl in Hl'.
    rewrite bool_decide_eq_false_2, andb_false_r in Hl' by tauto. done. }
  split. { by rewrite (barrier_trace _ _ _ _ Hbar); simpl; rewrite <- !app_assoc. }
  split; [done|]. split; [done|].
  intros c Hfl.
  assert (Hin : c ∈ inflight w ++ seq (length (heap w)) (length objs)).
  { rewrite <- Hperm. apply elem_of_app. by right. }
  apply elem_of_app in Hin as [|Hin]; [done|]. by destruct (Hgone c Hin).
Qed.

(** *** The order of completions *)

Lemma perform_write_sched write acct conds op w s :
  perform_write write acct conds op (with_sched s w) =
    match perform_write write acct conds op w with
    | Done r w1 => Done r (with_sched s w1)
    | Crash => Crash
    | Stuck => Stuck
    end.
Proof.
  destruct write as [id [buf r iocb lcb| |r]]; [|done..].
  unfold perform_write, new_cond, block_writes, on_write_launched. run.
  destruct (_ =? _)%nat; [|done]. by destruct lcb.
Qed.

Lemma dispatch_loop_sched writes acct conds ops w s :
  dispatch_loop writes acct conds ops (with_sched s w) =
    match dispatch_loop writes acct conds ops w with
    | Done r w1 => Done r (with_sched s w1)
    | Crash => Crash
    | Stuck => Stuck
    end.
Proof.
  revert conds ops w. induction writes as [|write rest IH]; intros conds ops w.
  - reflexivity.
  - cbn [dispatch_loop]. unfold bind. rewrite perform_write_sched.
    destruct (perform_write write acct conds _ w) as [r w1| |]; [|done..].
    apply IH.
Qed.

(** X5.  The order in which the physical layer completes the writes has no
    influence on what [do_writes] asks of the serializer: under any two
    schedules the same writes are submitted in the dispatch phase, the
    same handles are waited for, the same list of index updates is
    committed and the serializer is left in the same state. *)
Theorem do_writes_schedule_independent writes acct w s :
  one_token_per_write -> wf_world w ->
  exists w1 w2 D B1 B2 ops,
    do_writes writes acct w = Done tt w1 /\
    do_writes writes acct (with_sched s w) = Done tt w2 /\
    trace w1 = trace w ++ D ++ B1 ++ [EvIndexWrite ops acct] /\
    trace w2 = trace w ++ D ++ B2 ++ [EvIndexWrite ops acct] /\
    Forall (fun e => is_barrier_event e = true) B1 /\
    Forall (fun e => is_barrier_event e = true) B2 /\
    waits_of B1 = waits_of B2 /\
    phys_state w1 = phys_state w2.
Proof.
  intros Hone Hwf.
  destruct (do_writes_run writes acct w Hone Hwf)
    as (os & D & objs & p1 & B1 & wa & Hd & Hrun1 & Hwf1 & Hcs1 & Hrun2
        & Hbar1 & Hwfa & Hrun).
  cbn zeta in *.
  set (cs := seq (length (heap w)) (length objs)) in *.
  match type of Hrun1 with _ = Done _ ?x => set (w1 := x) in * end.
  assert (Hrun1' : dispatch_loop writes acct [] [] (with_sched s w)
                   = Done (cs, os) (with_sched s w1)).
  { by rewrite dispatch_loop_sched, Hrun1. }
  assert (Hwf1' : wf_world (with_sched s w1)) by exact Hwf1.
  assert (Hcs1' : waitable cs (with_sched s w1)) by exact Hcs1.
  destruct (wait_all_spec _ _ Hwf1' Hcs1')
    as (B2 & wb & Hrun2' & Hbar2 & Hwfb).
  eexists _, _, D, B1, B2, os.
  split; [exact Hrun|]. split.
  { unfold do_writes, assert_thread, index_write, bind at 1 2, ret.
    rewrite Hrun1'. unfold bind at 1. cbn [fst snd]. rewrite Hrun2'.
    run. reflexivity. }
  simpl.
  split. { by rewrite (barrier_trace _ _ _ _ Hbar1); simpl; rewrite <- !app_assoc. }
  split. { by rewrite (barrier_trace _ _ _ _ Hbar2); simpl; rewrite <- !app_assoc. }
  split; [by destruct Hbar1|]. split; [by destruct Hbar2|].
  split. { by rewrite (barrier_waits _ _ _ _ Hbar1), (barrier_waits _ _ _ _ Hbar2). }
  by rewrite (barrier_phys _ _ _ _ Hbar1), (barrier_phys _ _ _ _ Hbar2).
Qed.

(** *** One batch after the other *)

Lemma do_writes_summary writes acct w :
  one_token_per_write -> wf_world w ->
  exists w' T ops n,
    do_writes writes acct w = Done tt w' /\
    trace w' = trace w ++ T ++ [EvIndexWrite ops acct] /\
    commits_of T = [] /\
    news_of T = seq (length (heap w)) n /\
    length (heap w') = (length (heap w) + n)%nat /\
    map op_block_id ops = map block_id writes /\
    wf_world w'.
Proof.
  intros Hone Hwf.
  destruct (do_writes_run writes acct w Hone Hwf)
    as (os & D & objs & p1 & B & w2 & Hd & Hrun1 & Hwf1 & Hcs1 & Hrun2
        & Hbar & Hwf2 & Hrun).
  cbn zeta in *. eexists _, (D ++ B), os, (length objs).
  split; [exact Hrun|]. simpl.
  destruct (dispatched_quiet _ _ _ _ _ _ Hd) as (_ & _ & _ & HcD).
  destruct (barrier_no_commits B (barrier_events _ _ _ _ Hbar))
    as (HcB & _ & HnB & _).
  split. { by rewrite (barrier_trace _ _ _ _ Hbar); simpl; rewrite <- !app_assoc. }
  split. { unfold commits_of in *. by rewrite omap_app, HcD, HcB. }
  split. { unfold news_of in *. rewrite omap_app, HnB, app_nil_r.
           exact (dispatched_news _ _ _ _ _ _ Hd). }
  split. { rewrite (barrier_length _ _ _ _ Hbar). simpl. by rewrite length_app. }
  split; [by eapply dispatched_block_ids|]. exact Hwf2.
Qed.

(** X6.  Two calls of [do_writes] in a row, on any two batches (the same
    batch twice, for one): both return; the trace has the two commits in
    the order of the calls, each with one index update per descriptor of
    its own batch; the second call creates its handles afresh and reuses
    none of the first; the world is well formed at the end. *)
Theorem do_writes_twice ws1 a1 ws2 a2 w :
  one_token_per_write -> wf_world w ->
  exists w' T1 T2 ops1 ops2,
    bind (do_writes ws1 a1) (fun _ => do_writes ws2 a2) w = Done tt w' /\
    trace w' =
      trace w ++ T1 ++ [EvIndexWrite ops1 a1] ++ T2 ++ [EvIndexWrite ops2 a2] /\
    commits_of T1 = [] /\ commits_of T2 = [] /\
    map op_block_id ops1 = map block_id ws1 /\
    map op_block_id ops2 = map block_id ws2 /\
    NoDup (news_of T1 ++ news_of T2) /\
    wf_world w'.
Proof.
  intros Hone Hwf.
  destruct (do_writes_summary ws1 a1 w Hone Hwf)
    as (w1 & T1 & ops1 & n1 & Hrun1 & Ht1 & Hc1 & Hn1 & Hl1 & Hid1 & Hwf1).
  destruct (do_writes_summary ws2 a2 w1 Hone Hwf1)
    as (w2 & T2 & ops2 & n2 & Hrun2 & Ht2 & Hc2 & Hn2 & Hl2 & Hid2 & Hwf2).
  exists w2, T1, T2, ops1, ops2.
  split. { unfold bind. by rewrite Hrun1. }
  split. { by rewrite Ht2, Ht1, <- !app_assoc. }
  repeat (split; [done|]). split; [|done].
  rewrite Hn1, Hn2, Hl1, <- seq_app. apply NoDup_seq.
Qed.

(** *** The single-block path *)

Lemma serializer_block_write_run buf id acct w :
  one_token_per_write -> wf_world w ->
  exists t B w1,
    let c := length (heap w) in
    let w0 := {| phys_state :=
                   fst (ser_block_writes (phys_state w)
                          [write_info buf id] acct);
                 heap := heap w ++ [fresh_cond local_cond_t];
                 inflight := inflight w ++ seq c 1; sched := sched w;
                 trace := trace w ++
                   [EvNew c local_cond_t;
                    EvBlockWrites [write_info buf id] acct c [t]] |} in
    completed w0 B w1 /\ wf_world w1 /\ c ∈ pulses_of B /\
    serializer_block_write buf id acct w =
      Done t {| phys_state := phys_state w1;
                heap := <[c := {| cls := local_cond_t; pulsed := true;
                                  live := false |}]> (heap w1);
                inflight := inflight w1; sched := sched w1;
                trace := (trace w1 ++ [EvWait c]) ++ [EvDelete c] |}.
Proof.
  intros Hone Hwf.
  destruct (one_token_singleton (phys_state w) (write_info buf id) acct Hone)
    as [t Ht].
  exists t. set (c := length (heap w)).
  set (w0 := {| phys_state :=
                  fst (ser_block_writes (phys_state w)
                         [write_info buf id] acct);
                heap := heap w ++ [fresh_cond local_cond_t];
                inflight := inflight w ++ seq c 1; sched := sched w;
                trace := trace w ++
                  [EvNew c local_cond_t;
                   EvBlockWrites [write_info buf id] acct c [t]] |}).
  destruct (dispatch_ready w [fresh_cond local_cond_t] (phys_state w0)
              (trace w0) Hwf) as (Hwf0 & [_ Hc0] & _); [by repeat constructor|].
  fold c in Hwf0, Hc0. change (wf_world w0) in Hwf0.
  destruct (Hc0 c) as (o & Ho & Hl & Hpi); [by left|].
  assert (o = fresh_cond local_cond_t) as ->.
  { simpl in Ho. rewrite lookup_app_r, Nat.sub_diag in Ho by done.
    by injection Ho. }
  destruct (wait_spec w0 c _ Hwf0 Ho Hl Hpi)
    as (B & w1 & Hwait & Hcomp & Hwf1 & Hp1).
  pose proof (completed_heap _ _ _ Hcomp _ _ Ho) as Ho1.
  rewrite Hp1 in Ho1. simpl in Ho1.
  pose proof (delete_cond_spec c _ (emit (EvWait c) w1) Ho1 eq_refl) as Hdel.
  exists B, w1. cbn zeta. split; [done|]. split; [done|].
  split. { simpl in Hp1. by apply bool_decide_eq_true in Hp1. }
  unfold serializer_block_write, new_cond, block_writes. run.
  fold (write_info buf id). rewrite Ht. simpl. rewrite <- app_assoc.
  match goal with |- context [wait _ ?x] => change x with w0 end.
  fold c. rewrite Hwait. rewrite Hdel. reflexivity.
Qed.

(** X7.  [serializer_block_write] keeps the world well formed and cleans up
    after itself: on return its local handle, the one new object of the
    heap, is signaled and destroyed and its write is not in flight any
    more; nothing was added to the writes in flight; every object that
    existed before keeps its class and is alive exactly if it was.  It
    calls no launch callback and commits nothing. *)
Theorem serializer_block_write_cleans_up buf id acct w :
  one_token_per_write -> wf_world w ->
  exists t w' T,
    serializer_block_write buf id acct w = Done t w' /\
    wf_world w' /\
    trace w' = trace w ++ T /\
    launches_of T = [] /\ commits_of T = [] /\
    news_of T = [length (heap w)] /\
    length (heap w') = S (length (heap w)) /\
    heap w' !! length (heap w) =
      Some {| cls := local_cond_t; pulsed := true; live := false |} /\
    (forall c, c ∈ inflight w' -> c ∈ inflight w) /\
    (forall c o, heap w !! c = Some o ->
       exists o', heap w' !! c = Some o' /\
                  cls o' = cls o /\ live o' = live o).
Proof.
  intros Hone Hwf.
  destruct (serializer_block_write_run buf id acct w Hone Hwf)
    as (t & B & w1 & Hcomp & Hwf1 & Hp & Hrun).
  cbn zeta in *. set (c := length (heap w)) in *.
  pose proof (completed_length _ _ _ Hcomp) as Hlen. simpl in Hlen.
  rewrite length_app in Hlen. simpl in Hlen.
  assert (Hc1 : heap w1 !! c =
                Some {| cls := local_cond_t; pulsed := true; live := true |}).
  { erewrite (completed_heap _ _ _ Hcomp); last first.
    { simpl. rewrite lookup_app_r, Nat.sub_diag by done. reflexivity. }
    simpl. by rewrite (bool_decide_eq_true_2 _ Hp). }
  assert (Hnot : c ∉ inflight w1).
  { intros Hin. destruct Hwf1 as [_ Hwf1'].
    destruct (Hwf1' c Hin) as (o & Ho & Hpo & _).
    rewrite Hc1 in Ho. by injection Ho as <-. }
  destruct (completion_no_waits B (completed_events _ _ _ Hcomp))
    as [_ _].
  eexists t, _, _. split; [exact Hrun|]. simpl.
  split.
  { destruct Hwf1 as [Hnd1 Hwf1']. split; [done|]. simpl. intros c' Hin.
    destruct (Hwf1' c' Hin) as (o & Ho & ? & ?). exists o.
    rewrite list_lookup_insert_ne by (intros ->; done). done. }
  split.
  { rewrite (completed_trace _ _ _ Hcomp). simpl.
    rewrite <- !app_assoc. reflexivity. }
  assert (HB : launches_of B = [] /\ commits_of B = [] /\ news_of B = []).
  { pose proof (completion_is_barrier B (completed_events _ _ _ Hcomp)) as HB.
    by destruct (barrier_no_commits B HB) as (? & ? & ? & _). }
  destruct HB as (HlB & HcB & HnB).
  split. { unfold launches_of in *. by rewrite !omap_app, HlB. }
  split. { unfold commits_of in *. by rewrite !omap_app, HcB. }
  split. { unfold news_of in *. by rewrite !omap_app, HnB. }
  split. { rewrite length_insert. lia. }
  split. { apply list_lookup_insert_eq. lia. }
  split.
  { intros c' Hin.
    pose proof (completed_inflight _ _ _ Hcomp) as Hperm. simpl in Hperm.
    assert (Hin' : c' ∈ inflight w ++ [c]).
    { rewrite <- Hperm. apply elem_of_app. by right. }
    apply elem_of_app in Hin' as [|Heq]; [done|].
    apply list_elem_of_singleton in Heq as ->. done. }
  intros c' o Ho.
  assert (c' <> c) by (apply lookup_lt_Some in Ho; unfold c; lia).
  rewrite list_lookup_insert_ne by done.
  erewrite (completed_heap _ _ _ Hcomp); last first.
  { simpl. by apply lookup_app_l_Some. }
  eexists. split; [reflexivity|]. done.
Qed.

(** X8.  With no other write in flight, [serializer_block_write] runs the
    same way under every schedule: the one completion that is delivered
    while it waits is its own, so the events are the new handle, the
    write, one pulse, the return from the wait and the destruction of the
    handle, and no callback is called. *)
Theorem serializer_block_write_alone buf id acct w :
  one_token_per_write -> inflight w = [] ->
  exists t,
    snd (ser_block_writes (phys_state w) [write_info buf id] acct) = [t] /\
    let c := length (heap w) in
    serializer_block_write buf id acct w =
      Done t {| phys_state :=
                  fst (ser_block_writes (phys_state w)
                         [write_info buf id] acct);
                heap := heap w ++
                  [{| cls := local_cond_t; pulsed := true; live := false |}];
                inflight := [];
                sched := tl (sched w);
                trace := trace w ++
                  [EvNew c local_cond_t;
                   EvBlockWrites [write_info buf id] acct c [t];
                   EvPulse c; EvWait c; EvDelete c] |}.
Proof.
  intros Hone Hfl.
  destruct (one_token_singleton (phys_state w) (write_info buf id) acct Hone)
    as [t Ht].
  exists t. split; [exact Ht|]. cbn zeta.
  assert (Hins : forall (o o' : cond_obj),
            <[length (heap w) := o']> (heap w ++ [o]) = heap w ++ [o']).
  { intros o o'. rewrite insert_app_r_alt, Nat.sub_diag by done. done. }
  assert (Hlk : forall (o : cond_obj),
            (heap w ++ [o]) !! length (heap w) = Some o).
  { intros o. by rewrite lookup_app_r, Nat.sub_diag. }
  unfold serializer_block_write, new_cond, block_writes. run.
  fold (write_info buf id). rewrite Ht, Hfl. simpl.
  repeat progress
    (unfold wait, deliver_one, on_io_complete, local_cond_on_io_complete,
       pulse, delete_cond, deref; run;
     rewrite ?Hlk, ?Hins, ?Nat.mod_1_r; simpl).
  rewrite <- !app_assoc. reflexivity.
Qed.

End WritePath.

(** ** Properties of [serializer_data_ptr_t] *)

Section DataPtrProofs.
Context {contents : Type} (uninitialized : contents).

Implicit Types (this other q : serializer_data_ptr_t) (p : pool (contents := contents)).

(** X9.  Allocation and release are inverse on an empty pointer:
    [init_malloc] gives it a fresh buffer of its own, [free] releases that
    buffer and leaves the pointer empty again, and no buffer that existed
    before is touched. *)
Theorem init_malloc_then_free this p :
  ptr_ this = None ->
  exists this1 p1,
    init_malloc uninitialized this p = Some (this1, p1) /\
    ptr_ this1 = Some (length p) /\
    p1 !! length p = Some (Some uninitialized) /\
    (forall a, (a < length p)%nat -> p1 !! a = p !! a) /\
    data_ptr_free this1 p1 = Some ({| ptr_ := None |}, p ++ [None]).
Proof.
  unfold pool in *.
  intros Hnone. unfold init_malloc, has. rewrite Hnone. simpl.
  eexists _, _. split; [reflexivity|]. simpl. split; [done|].
  split. { by rewrite lookup_app_r, Nat.sub_diag. }
  split. { intros a Ha. by rewrite lookup_app_l. }
  unfold data_ptr_free, has, scoped_reset, buffer_release, pool. simpl.
  rewrite lookup_app_r, Nat.sub_diag by done. simpl.
  by rewrite insert_app_r_alt, Nat.sub_diag.
Qed.

(** X10.  [init_clone] makes a deep copy: the clone is a fresh buffer with the
    contents of the original, and the original and its owner are
    unchanged.  The two have independent lifetimes: either can be freed
    while the other stays alive, and freeing both, in either order, leaves
    the same pool. *)
Theorem init_clone_is_deep_copy this other p a x :
  ptr_ this = None -> ptr_ other = Some a -> p !! a = Some (Some x) ->
  let clone := {| ptr_ := Some (length p) |} in
  let p1 := p ++ [Some x] in
  init_clone this other p = Some (clone, p1) /\
  length p <> a /\
  p1 !! a = Some (Some x) /\ p1 !! length p = Some (Some x) /\
  (exists p2, data_ptr_free clone p1 = Some ({| ptr_ := None |}, p2) /\
              p2 !! a = Some (Some x) /\
              data_ptr_free other p2 =
                Some ({| ptr_ := None |}, <[a := None]> p ++ [None])) /\
  (exists p2, data_ptr_free other p1 = Some ({| ptr_ := None |}, p2) /\
              p2 !! length p = Some (Some x) /\
              data_ptr_free clone p2 =
                Some ({| ptr_ := None |}, <[a := None]> p ++ [None])).
Proof.
  unfold pool in *.
  intros Hnone Hother Ha. cbn zeta.
  assert (Hlt : (a < length p)%nat) by by eapply lookup_lt_Some.
  assert (Hla : (p ++ [Some x]) !! a = Some (Some x)) by by rewrite lookup_app_l.
  assert (Hlc : forall y : option contents, (p ++ [y]) !! length p = Some y).
  { intros y. by rewrite lookup_app_r, Nat.sub_diag. }
  split.
  { unfold init_clone, has, ser_clone, pool. rewrite Hnone, Hother. simpl.
    by rewrite Ha. }
  split; [lia|]. split; [done|]. split; [apply Hlc|].
  unfold data_ptr_free, has, scoped_reset, buffer_release, pool.
  rewrite Hother. simpl. split.
  - rewrite Hlc. simpl. eexists. split; [reflexivity|].
    rewrite insert_app_r_alt, Nat.sub_diag by done. simpl.
    rewrite lookup_app_l, Ha by done. simpl. split; [done|].
    by rewrite insert_app_l.
  - rewrite Hla. simpl. eexists. split; [reflexivity|].
    rewrite insert_app_l by done.
    rewrite lookup_app_r, length_insert, Nat.sub_diag by (rewrite length_insert; lia).
    simpl. split; [done|].
    rewrite insert_app_r_alt, length_insert, Nat.sub_diag
      by (rewrite length_insert; lia).
    done.
Qed.

(** X11.  Misuse is fatal, never silent.  A second [free] aborts, through the
    pointer itself as well as through a stale copy of it; [free] of an
    empty pointer aborts; [init_malloc] and [init_clone] abort on a
    pointer that holds a buffer, so a held buffer is never overwritten;
    [init_clone] aborts when the original is empty. *)
Theorem data_ptr_misuse_aborts this other p a x :
  ptr_ this = Some a -> p !! a = Some (Some x) ->
  (exists p1, data_ptr_free this p = Some ({| ptr_ := None |}, p1) /\
              data_ptr_free {| ptr_ := None |} p1 = None /\
              data_ptr_free this p1 = None) /\
  data_ptr_free {| ptr_ := None |} p = None /\
  init_malloc uninitialized this p = None /\
  init_clone this other p = None /\
  init_clone {| ptr_ := None |} {| ptr_ := None |} p = None.
Proof.
  unfold pool in *.
  intros Hthis Ha.
  assert (Hlt : (a < length p)%nat) by by eapply lookup_lt_Some.
  unfold data_ptr_free, init_malloc, init_clone, has, scoped_reset,
    buffer_release, pool. rewrite Hthis. simpl. rewrite Ha. simpl.
  split.
  - eexists. split; [reflexivity|]. split; [done|].
    by rewrite list_lookup_insert_eq.
  - repeat split. by destruct (bool_decide (is_Some (ptr_ other))).
Qed.

(** X12.  What one pointer does never harms another owner: after a successful
    [free], [init_malloc] or [init_clone] on [this], a pointer [q] that
    owned a buffer other than the one of [this] still owns it, and [this]
    owns what it points to. *)
Theorem data_ptr_ownership_kept this other q p this' p' :
  owns q p -> owns this p ->
  (ptr_ q = None \/ ptr_ q <> ptr_ this) ->
  data_ptr_free this p = Some (this', p') \/
  init_malloc uninitialized this p = Some (this', p') \/
  init_clone this other p = Some (this', p') ->
  owns q p' /\ owns this' p'.
Proof.
  unfold pool in *.
  intros Hq Hthis Hne Hop. unfold owns in *.
  assert (Hgrow : forall y : option contents,
            match ptr_ q with
            | Some b => exists x, (p ++ [y]) !! b = Some (Some x)
            | None => True
            end).
  { intros y. destruct (ptr_ q) as [b|]; [|done].
    destruct Hq as [x Hx]. exists x. by apply lookup_app_l_Some. }
  assert (Hlc : forall y : option contents, (p ++ [y]) !! length p = Some y).
  { intros y. by rewrite lookup_app_r, Nat.sub_diag. }
  destruct Hop as [Hop|[Hop|Hop]].
  - unfold data_ptr_free, has, scoped_reset, buffer_release, pool in Hop.
    destruct (ptr_ this) as [a|] eqn:Ea; [|done]. simpl in Hop.
    destruct (p !! a) as [[x|]|] eqn:Ha; simplify_eq/=.
    split; [|done]. destruct (ptr_ q) as [b|]; [|done].
    destruct Hq as [y Hy]. exists y. rewrite <- Hy.
    apply list_lookup_insert_ne. destruct Hne; congruence.
  - unfold init_malloc, has, ser_malloc, pool in Hop.
    destruct (ptr_ this) as [a|] eqn:Ea; [done|]. simplify_eq/=.
    split; [apply Hgrow|]. eexists. apply Hlc.
  - unfold init_clone, has, ser_clone, pool in Hop.
    destruct (ptr_ other) as [a|]; [|done].
    destruct (ptr_ this) as [a'|] eqn:Ea; [done|]. simpl in Hop.
    destruct (p !! a) as [[x|]|] eqn:Ha; simplify_eq/=.
    split; [apply Hgrow|]. eexists. apply Hlc.
Qed.

End DataPtrProofs.

(** ** The further properties on the demo serializer *)

Import DemoFaulty.

Lemma do_writes_without_updates_witness :
  Forall (fun write => is_update write = false)
    [make_delete 2%N; make_touch 3%N t9] /\
  exists ops,
    do_writes [make_delete 2%N; make_touch 3%N t9] 5%N w_busy =
      Done tt {| phys_state := ser_index_write (phys_state w_busy) ops 5%N;
                 heap := heap w_busy; inflight := inflight w_busy;
                 sched := sched w_busy;
                 trace := trace w_busy ++ [EvIndexWrite ops 5%N] |} /\
    map op_block_id ops = map block_id [make_delete 2%N; make_touch 3%N t9].
Proof.
  assert (H : Forall (fun write => is_update write = false)
                [make_delete 2%N; make_touch 3%N t9])
    by (repeat constructor).
  split; [exact H|].
  exact (do_writes_without_updates [make_delete 2%N; make_touch 3%N t9]
           5%N w_busy H).
Defined.


Lemma do_writes_releases_its_handles_witness :
  one_token_per_write (ser := demo_ser) /\ wf_world w_busy /\
  exists w',
    do_writes batch_same 5%N w_busy = Done tt w' /\
    length (heap w') =
      (length (heap w_busy) + length (omap update_block_of batch_same))%nat /\
    (forall c, (length (heap w_busy) <= c < length (heap w'))%nat ->
       exists o', heap w' !! c = Some o' /\
                  pulsed o' = true /\ live o' = false) /\
    (forall c o, heap w_busy !! c = Some o ->
       exists o', heap w' !! c = Some o' /\
                  cls o' = cls o /\ live o' = live o).
Proof.
  split; [exact demo_one_token|]. split; [exact demo_wf_busy|].
  exact (do_writes_releases_its_handles batch_same 5%N w_busy
           demo_one_token demo_wf_busy).
Defined.

Lemma do_writes_leaves_nothing_in_flight_witness :
  one_token_per_write (ser := demo_ser) /\ wf_world w_busy /\
  exists w' D B ops,
    do_writes batch3 5%N w_busy = Done tt w' /\
    trace w' = trace w_busy ++ D ++ B ++ [EvIndexWrite ops 5%N] /\
    pulses_of B ++ inflight w' ≡ₚ inflight w_busy ++ news_of D /\
    (forall c, c ∈ news_of D -> c ∉ inflight w') /\
    (forall c, c ∈ inflight w' -> c ∈ inflight w_busy).
Proof.
  split; [exact demo_one_token|]. split; [exact demo_wf_busy|].
  exact (do_writes_leaves_nothing_in_flight batch3 5%N w_busy
           demo_one_token demo_wf_busy).
Defined.

Lemma do_writes_schedule_independent_witness :
  one_token_per_write (ser := demo_ser) /\ wf_world w_busy /\
  exists w1 w2 D B1 B2 ops,
    do_writes batch_same 5%N w_busy = Done tt w1 /\
    do_writes batch_same 5%N (with_sched [0%nat; 1%nat] w_busy) = Done tt w2 /\
    trace w1 = trace w_busy ++ D ++ B1 ++ [EvIndexWrite ops 5%N] /\
    trace w2 = trace w_busy ++ D ++ B2 ++ [EvIndexWrite ops 5%N] /\
    Forall (fun e => is_barrier_event e = true) B1 /\
    Forall (fun e => is_barrier_event e = true) B2 /\
    waits_of B1 = waits_of B2 /\
    phys_state w1 = phys_state w2.
Proof.
  split; [exact demo_one_token|]. split; [exact demo_wf_busy|].
  exact (do_writes_schedule_independent batch_same 5%N w_busy
           [0%nat; 1%nat] demo_one_token demo_wf_busy).
Defined.

Lemma do_writes_twice_witness :
  one_token_per_write (ser := demo_ser) /\ wf_world w_busy /\
  exists w' T1 T2 ops1 ops2,
    bind (do_writes batch3 5%N) (fun _ => do_writes batch3 5%N) w_busy
      = Done tt w' /\
    trace w' =
      trace w_busy ++ T1 ++ [EvIndexWrite ops1 5%N] ++ T2
        ++ [EvIndexWrite ops2 5%N] /\
    commits_of T1 = [] /\ commits_of T2 = [] /\
    map op_block_id ops1 = map block_id batch3 /\
    map op_block_id ops2 = map block_id batch3 /\
    NoDup (news_of T1 ++ news_of T2) /\
    wf_world w'.
Proof.
  split; [exact demo_one_token|]. split; [exact demo_wf_busy|].
  exact (do_writes_twice batch3 5%N batch3 5%N w_busy
           demo_one_token demo_wf_busy).
Defined.

Lemma serializer_block_write_cleans_up_witness :
  one_token_per_write (ser := demo_ser) /\ wf_world w_busy /\
  exists t w' T,
    serializer_block_write 1000 1%N 5%N w_busy = Done t w' /\
    wf_world w' /\
    trace w' = trace w_busy ++ T /\
    launches_of T = [] /\ commits_of T = [] /\
    news_of T = [length (heap w_busy)] /\
    length (heap w') = S (length (heap w_busy)) /\
    heap w' !! length (heap w_busy) =
      Some {| cls := local_cond_t; pulsed := true; live := false |} /\
    (forall c, c ∈ inflight w' -> c ∈ inflight w_busy) /\
    (forall c o, heap w_busy !! c = Some o ->
       exists o', heap w' !! c = Some o' /\
                  cls o' = cls o /\ live o' = live o).
Proof.
  split; [exact demo_one_token|]. split; [exact demo_wf_busy|].
  exact (serializer_block_write_cleans_up 1000 1%N 5%N w_busy
           demo_one_token demo_wf_busy).
Defined.

Lemma serializer_block_write_alone_witness :
  one_token_per_write (ser := demo_ser) /\ inflight w0 = [] /\
  exists t,
    snd (ser_block_writes (phys_state w0) [write_info 1000 1%N] 5%N) = [t] /\
    let c := length (heap w0) in
    serializer_block_write 1000 1%N 5%N w0 =
      Done t {| phys_state :=
                  fst (ser_block_writes (phys_state w0)
                         [write_info 1000 1%N] 5%N);
                heap := heap w0 ++
                  [{| cls := local_cond_t; pulsed := true; live := false |}];
                inflight := [];
                sched := tl (sched w0);
                trace := trace w0 ++
                  [EvNew c local_cond_t;
                   EvBlockWrites [write_info 1000 1%N] 5%N c [t];
                   EvPulse c; EvWait c; EvDelete c] |}.
Proof.
  split; [exact demo_one_token|]. split; [reflexivity|].
  exact (serializer_block_write_alone 1000 1%N 5%N w0
           demo_one_token eq_refl).
Defined.

Lemma init_malloc_then_free_witness :
  ptr_ {| ptr_ := None |} = None /\
  exists this1 p1,
    init_malloc 0 {| ptr_ := None |} pool2 = Some (this1, p1) /\
    ptr_ this1 = Some (length pool2) /\
    p1 !! length pool2 = Some (Some 0) /\
    (forall a, (a < length pool2)%nat -> p1 !! a = pool2 !! a) /\
    data_ptr_free this1 p1 = Some ({| ptr_ := None |}, pool2 ++ [None]).
Proof.
  split; [reflexivity|].
  exact (init_malloc_then_free 0 {| ptr_ := None |} pool2 eq_refl).
Defined.

Lemma init_clone_is_deep_copy_witness :
  ptr_ {| ptr_ := None |} = None /\
  ptr_ {| ptr_ := Some 0%nat |} = Some 0%nat /\
  pool2 !! 0%nat = Some (Some 7) /\
  let clone := {| ptr_ := Some (length pool2) |} in
  let p1 := pool2 ++ [Some 7] in
  init_clone {| ptr_ := None |} {| ptr_ := Some 0%nat |} pool2
    = Some (clone, p1) /\
  length pool2 <> 0%nat /\
  p1 !! 0%nat = Some (Some 7) /\ p1 !! length pool2 = Some (Some 7) /\
  (exists p2, data_ptr_free clone p1 = Some ({| ptr_ := None |}, p2) /\
              p2 !! 0%nat = Some (Some 7) /\
              data_ptr_free {| ptr_ := Some 0%nat |} p2 =
                Some ({| ptr_ := None |}, <[0%nat := None]> pool2 ++ [None])) /\
  (exists p2, data_ptr_free {| ptr_ := Some 0%nat |} p1
                = Some ({| ptr_ := None |}, p2) /\
              p2 !! length pool2 = Some (Some 7) /\
              data_ptr_free clone p2 =
                Some ({| ptr_ := None |}, <[0%nat := None]> pool2 ++ [None])).
Proof.
  split; [reflexivity|]. split; [reflexivity|]. split; [reflexivity|].
  exact (init_clone_is_deep_copy {| ptr_ := None |} {| ptr_ := Some 0%nat |}
           pool2 0%nat 7 eq_refl eq_refl eq_refl).
Defined.

Lemma data_ptr_misuse_aborts_witness :
  ptr_ {| ptr_ := Some 0%nat |} = Some 0%nat /\
  pool2 !! 0%nat = Some (Some 7) /\
  (exists p1, data_ptr_free {| ptr_ := Some 0%nat |} pool2
                = Some ({| ptr_ := None |}, p1) /\
              data_ptr_free {| ptr_ := None |} p1 = None /\
              data_ptr_free {| ptr_ := Some 0%nat |} p1 = None) /\
  data_ptr_free {| ptr_ := None |} pool2 = None /\
  init_malloc 0 {| ptr_ := Some 0%nat |} pool2 = None /\
  init_clone {| ptr_ := Some 0%nat |} {| ptr_ := Some 0%nat |} pool2 = None /\
  init_clone {| ptr_ := None |} {| ptr_ := None |} pool2 = None.
Proof.
  split; [reflexivity|]. split; [reflexivity|].
  exact (data_ptr_misuse_aborts 0 {| ptr_ := Some 0%nat |}
           {| ptr_ := Some 0%nat |} pool2 0%nat 7 eq_refl eq_refl).
Defined.

Lemma data_ptr_ownership_kept_witness :
  owns {| ptr_ := Some 0%nat |} pool2 /\ owns {| ptr_ := None |} pool2 /\
  (ptr_ {| ptr_ := Some 0%nat |} = None \/
   ptr_ {| ptr_ := Some 0%nat |} <> ptr_ {| ptr_ := None |}) /\
  (data_ptr_free {| ptr_ := None |} pool2
     = Some ({| ptr_ := Some 2%nat |}, pool2 ++ [Some 7]) \/
   init_malloc 0 {| ptr_ := None |} pool2
     = Some ({| ptr_ := Some 2%nat |}, pool2 ++ [Some 7]) \/
   init_clone {| ptr_ := None |} {| ptr_ := Some 0%nat |} pool2
     = Some ({| ptr_ := Some 2%nat |}, pool2 ++ [Some 7])) /\
  owns {| ptr_ := Some 0%nat |} (pool2 ++ [Some 7]) /\
  owns {| ptr_ := Some 2%nat |} (pool2 ++ [Some 7]).
Proof.
  assert (Hq : owns {| ptr_ := Some 0%nat |} pool2) by (by exists 7).
  assert (Ht : owns {| ptr_ := None |} pool2) by exact I.
  assert (Hne : ptr_ {| ptr_ := Some 0%nat |} = None \/
                ptr_ {| ptr_ := Some 0%nat |} <> ptr_ {| ptr_ := None |})
    by (by right).
  assert (Hop :
    data_ptr_free {| ptr_ := None |} pool2
      = Some ({| ptr_ := Some 2%nat |}, pool2 ++ [Some 7]) \/
    init_malloc 0 {| ptr_ := None |} pool2
      = Some ({| ptr_ := Some 2%nat |}, pool2 ++ [Some 7]) \/
    init_clone {| ptr_ := None |} {| ptr_ := Some 0%nat |} pool2
      = Some ({| ptr_ := Some 2%nat |}, pool2 ++ [Some 7]))
    by (right; right; reflexivity).
  split; [exact Hq|]. split; [exact Ht|]. split; [exact Hne|].
  split; [exact Hop|].
  exact (data_ptr_ownership_kept 0 {| ptr_ := None |}
           {| ptr_ := Some 0%nat |} {| ptr_ := Some 0%nat |} pool2
           _ _ Hq Ht Hne Hop).
Defined.

(** ** Properties of the JSON wire protocol *)

Section JsonShimProofs.
Context {datum doc query_params : Type} {env : shim_env datum doc query_params}.

Implicit Types (response : response_t datum) (buffer body : list char)
  (conn : conn_t) (token size : Z).

(** *** Buffers *)

Lemma buffer_pop_written buffer body :
  buffer_pop (length (buffer ++ body) - length buffer) (buffer ++ body)
    = buffer.
Proof.
  unfold buffer_pop. rewrite length_app.
  replace (length buffer + length body
           - (length buffer + length body - length buffer))%nat
    with (length buffer) by lia.
  by rewrite take_app_length.
Qed.

Lemma fill_bytes_lookup offset count byte_of buffer i :
  (offset + count <= length buffer)%nat ->
  fill_bytes offset count byte_of buffer !! i =
    if decide (offset <= i < offset + count)%nat
    then Some (byte_of (i - offset)%nat)
    else buffer !! i.
Proof.
  unfold fill_bytes. revert buffer.
  induction count as [|count IH]; intros buffer Hlen.
  { simpl. case_decide; [lia|done]. }
  rewrite seq_S, foldl_app. simpl.
  destruct (decide (i = count + offset)%nat) as [->|Hne].
  - rewrite list_lookup_insert_eq; last first.
    { clear IH. assert (Hl : forall (l : list nat) (b : list char),
        length (foldl (fun b i => <[(i + offset)%nat := byte_of i]> b) b l)
        = length b).
      { induction l as [|x l IHl]; intros b; simpl; [done|].
        by rewrite IHl, length_insert. }
      rewrite Hl. lia. }
    rewrite decide_True by (clear IH; lia). do 2 f_equal. clear IH; lia.
  - rewrite list_lookup_insert_ne by (clear IH; lia).
    rewrite IH by lia. clear IH.
    destruct (decide (offset <= i < offset + count)%nat);
      [rewrite decide_True by lia|rewrite decide_False by lia]; done.
Qed.

Lemma fill_bytes_length offset count byte_of buffer :
  length (fill_bytes offset count byte_of buffer) = length buffer.
Proof.
  unfold fill_bytes. generalize (seq 0 count). intros l. revert buffer.
  induction l as [|x l IH]; intros buffer; simpl; [done|].
  by rewrite IH, length_insert.
Qed.

(** The two loops of [send_response] turn the reserved prefix into the
    header of the frame. *)
Lemma fill_header token size (reserved : list char) body :
  length reserved = 12%nat ->
  fill_bytes 8 4 (repr_uint32 size)
    (fill_bytes 0 8 (repr_int64 token) (reserved ++ body))
  = map (repr_int64 token) (seq 0 8) ++ map (repr_uint32 size) (seq 0 4)
    ++ body.
Proof.
  intros Hres. apply list_eq. intros i.
  rewrite fill_bytes_lookup
    by (rewrite fill_bytes_length, length_app; lia).
  rewrite fill_bytes_lookup by (rewrite length_app; lia).
  destruct (decide (i < 8)%nat) as [Hi|Hi].
  - rewrite decide_False by lia. rewrite decide_True by lia.
    rewrite lookup_app_l by (rewrite length_map, length_seq; lia).
    rewrite list_lookup_fmap, lookup_seq_lt by lia. simpl.
    do 2 f_equal. lia.
  - destruct (decide (i < 12)%nat) as [Hi'|Hi'].
    + rewrite decide_True by lia.
      rewrite lookup_app_r by (rewrite length_map, length_seq; lia).
      rewrite length_map, length_seq.
      rewrite lookup_app_l by (rewrite length_map, length_seq; lia).
      rewrite list_lookup_fmap, lookup_seq_lt by lia. simpl.
      do 2 f_equal.
    + rewrite decide_False by lia. rewrite decide_False by lia.
      rewrite lookup_app_r by lia.
      rewrite lookup_app_r by (rewrite length_map, length_seq; lia).
      rewrite length_map, length_seq.
      rewrite lookup_app_r by (rewrite length_map, length_seq; lia).
      rewrite length_map, length_seq. f_equal. lia.
Qed.

(** *** Writing a response *)

Lemma write_response_internal_wrote fuel response buffer throw_errors
    response' buffer' :
  write_response_internal fuel response buffer throw_errors
    = Wrote response' buffer' ->
  (try_block response').2 = None /\
  buffer' = buffer ++ render (try_block response').1.
Proof.
  revert response buffer throw_errors.
  induction fuel as [|fuel IH]; intros response buffer throw_errors;
    cbn [write_response_internal];
    destruct (try_block response).2 as [[what|what]|] eqn:Hexc;
    rewrite ?buffer_pop_written;
    try destruct throw_errors; try discriminate;
    try (intros [= <- <-]; by split);
    intros Hrun; by apply IH in Hrun.
Qed.

(** X13.  Whatever happens inside, a call of [write_response_internal]
    that returns has added to the buffer exactly one response, written
    from beginning to end without an exception, and it is the response
    that is left in [*response]; what the buffer held before is kept, and
    nothing remains of an attempt that an exception cut short. *)
Theorem write_response_all_or_nothing fuel response buffer throw_errors
    response' buffer' :
  write_response_internal fuel response buffer throw_errors
    = Wrote response' buffer' ->
  (try_block response').2 = None /\
  buffer' = buffer ++ render (try_block response').1 /\
  write_response_internal fuel response' buffer throw_errors
    = Wrote response' buffer'.
Proof.
  intros Hrun.
  destruct (write_response_internal_wrote _ _ _ _ _ _ Hrun) as [Hok ->].
  split; [done|]. split; [done|].
  destruct fuel; cbn [write_response_internal]; by rewrite Hok.
Qed.

(** X14.  When writing the response throws [ql::base_exc_t], the
    buffer is rolled back to where it was and the response is replaced by
    a runtime error with the message of the exception, which is written
    instead, in debug and in release builds alike. *)
Theorem write_response_base_exc_rolls_back fuel response buffer
    throw_errors what :
  (try_block response).2 = Some (base_exc_t what) ->
  (try_block (fill_error3 response RUNTIME_ERROR what)).2 = None ->
  write_response_internal (S fuel) response buffer throw_errors =
    Wrote (fill_error3 response RUNTIME_ERROR what)
      (buffer
       ++ render (try_block (fill_error3 response RUNTIME_ERROR what)).1) /\
  write_response_to_buffer (S fuel) response buffer =
    Wrote (fill_error3 response RUNTIME_ERROR what)
      (buffer
       ++ render (try_block (fill_error3 response RUNTIME_ERROR what)).1).
Proof.
  intros Hexc Hok.
  assert (H : forall te, write_response_internal (S fuel) response buffer te =
    Wrote (fill_error3 response RUNTIME_ERROR what)
      (buffer
       ++ render (try_block (fill_error3 response RUNTIME_ERROR what)).1)).
  { intros te. cbn [write_response_internal]. rewrite Hexc.
    rewrite buffer_pop_written.
    destruct fuel; cbn [write_response_internal]; by rewrite Hok. }
  split; [apply H|]. unfold write_response_to_buffer.
  destruct NDEBUG; apply H.
Qed.

(** X15.  When writing the response throws another [std::exception]:
    with [throw_errors] the exception escapes; without it the buffer is
    rolled back and an internal runtime error that quotes the exception
    is written instead.  [write_response_to_buffer] does the first in
    debug builds and the second in release builds. *)
Theorem write_response_std_exception fuel response buffer what :
  (try_block response).2 = Some (std_exception what) ->
  let error :=
    fill_error response RUNTIME_ERROR INTERNAL
      ("Internal error in json_protocol_t::write: " +:+ what) in
  (try_block error).2 = None ->
  write_response_internal (S fuel) response buffer true
    = WriteThrown (std_exception what) /\
  write_response_internal (S fuel) response buffer false
    = Wrote error (buffer ++ render (try_block error).1) /\
  write_response_to_buffer (S fuel) response buffer =
    if NDEBUG then Wrote error (buffer ++ render (try_block error).1)
    else WriteThrown (std_exception what).
Proof.
  intros Hexc error Hok.
  assert (Ht : write_response_internal (S fuel) response buffer true
               = WriteThrown (std_exception what)).
  { cbn [write_response_internal]. by rewrite Hexc. }
  assert (Hf : write_response_internal (S fuel) response buffer false
               = Wrote error (buffer ++ render (try_block error).1)).
  { cbn [write_response_internal]. rewrite Hexc, buffer_pop_written.
    fold error. destruct fuel; cbn [write_response_internal]; by rewrite Hok. }
  split; [done|]. split; [done|]. unfold write_response_to_buffer.
  by destruct NDEBUG.
Qed.

(** *** Sending a response *)

Lemma send_response_run fuel response token conn response' buffer' :
  write_response_to_buffer fuel response (buffer_push 12 [])
    = Wrote response' buffer' ->
  let body := render (try_block response').1 in
  (0 < length body)%nat ->
  Z.of_nat (length body) < TOO_LARGE_RESPONSE_SIZE ->
  send_response fuel response token conn =
    Returned response'
      {| conn_input := conn_input conn;
         conn_output := conn_output conn ++ [frame token body] |}.
Proof.
  intros Hw body Hpos Hsmall.
  assert (Hb : buffer' = buffer_push 12 [] ++ body).
  { unfold write_response_to_buffer in Hw.
    destruct NDEBUG;
      by destruct (write_response_internal_wrote _ _ _ _ _ _ Hw) as [_ ->]. }
  subst buffer'.
  assert (Hlen : Z.of_nat (length (buffer_push 12 [] ++ body))
                 - Z.of_nat (8 + 4) = Z.of_nat (length body)).
  { rewrite length_app. unfold buffer_push. simpl.
    rewrite ?length_replicate. lia. }
  destruct fuel; cbn [send_response]; change (8 + 4)%nat with 12%nat in *;
    rewrite Hw; cbv zeta; rewrite Hlen.
  all: rewrite (proj2 (Z.ltb_lt 0 _)) by lia; cbn [negb].
  all: rewrite (proj2 (Z.leb_gt _ _)) by lia.
  all: unfold conn_write, frame.
  all: rewrite Z.mod_small by (unfold TOO_LARGE_RESPONSE_SIZE in Hsmall; lia).
  all: rewrite fill_header by (unfold buffer_push; simpl;
                               by rewrite ?length_replicate).
  all: reflexivity.
Qed.

(** X16.  A response whose payload is not empty and below the limit is
    sent in one [write]: eight bytes of token, four bytes that hold the
    size of the payload, then the payload; the frame is [12] bytes longer
    than the payload, the reserved bytes do not show in it, and the input
    side of the connection is not touched. *)
Theorem send_response_frame fuel response token conn response' buffer' :
  write_response_to_buffer fuel response (buffer_push 12 [])
    = Wrote response' buffer' ->
  let body := render (try_block response').1 in
  (0 < length body)%nat ->
  Z.of_nat (length body) < TOO_LARGE_RESPONSE_SIZE ->
  send_response fuel response token conn =
    Returned response'
      {| conn_input := conn_input conn;
         conn_output := conn_output conn ++ [frame token body] |} /\
  length (frame token body) = (12 + length body)%nat /\
  take 8 (frame token body) = map (repr_int64 token) (seq 0 8) /\
  drop 12 (frame token body) = body.
Proof.
  intros Hw body Hpos Hsmall.
  split; [by apply send_response_run with buffer'|].
  unfold frame.
  split. { rewrite !length_app, !length_map, !length_seq. lia. }
  split.
  - rewrite take_app_length'; [done|]. by rewrite length_map, length_seq.
  - rewrite app_assoc, drop_app_length'; [done|].
    by rewrite length_app, !length_map, !length_seq.
Qed.

(** *** Reading a query *)

Lemma conn_read_app n (bytes rest : list char) conn :
  conn_input conn = bytes ++ rest -> length bytes = n ->
  conn_read n conn =
    Returned bytes {| conn_input := rest; conn_output := conn_output conn |}.
Proof.
  intros Hin Hn. unfold conn_read. rewrite Hin, length_app.
  rewrite decide_True by lia.
  by rewrite take_app_length', drop_app_length'.
Qed.

Lemma conn_read_short n conn :
  (length (conn_input conn) < n)%nat ->
  conn_read n conn =
    Thrown tcp_conn_read_closed_exc_t
      {| conn_input := []; conn_output := conn_output conn |}.
Proof. intros Hn. unfold conn_read. by rewrite decide_False by lia. Qed.

Lemma c_str_terminated (payload more : list char) :
  c_str (payload ++ 0 :: more) = c_str payload.
Proof.
  induction payload as [|c payload IH]; simpl; [done|].
  destruct (c =? 0); [done|]. by rewrite IH.
Qed.

Lemma query_data (payload : list char) :
  <[length payload := 0]>
    (payload ++ drop (length payload)
                  (replicate (length payload + 1) uninit_char))
  = payload ++ [0].
Proof.
  rewrite drop_replicate.
  replace (length payload + 1 - length payload)%nat with 1%nat by lia.
  simpl. rewrite insert_app_r_alt, Nat.sub_diag by done. done.
Qed.

(** The run of [parse_query] on a connection that holds a whole query
    of an acceptable size. *)
Lemma parse_query_read fuel query_cache conn
    (token_bytes size_bytes payload rest : list char) :
  conn_input conn = token_bytes ++ size_bytes ++ payload ++ rest ->
  length token_bytes = 8%nat -> length size_bytes = 4%nat ->
  load_uint32 size_bytes = Z.of_nat (length payload) ->
  Z.of_nat (length payload) < TOO_LARGE_QUERY_SIZE ->
  let token := load_int64 token_bytes in
  let conn' := {| conn_input := rest; conn_output := conn_output conn |} in
  parse_query fuel query_cache conn =
    match parse_query_from_buffer (payload ++ [0]) 0 query_cache token with
    | Some res => Returned (Some res) conn'
    | None =>
        match send_response fuel
                (fill_error default_response CLIENT_ERROR RESOURCE_LIMIT
                   unparseable_query_message) token conn' with
        | Returned _ conn'' => Returned None conn''
        | Thrown e conn'' => Thrown e conn''
        | Aborted => Aborted
        | OutOfFuel => OutOfFuel
        end
    end.
Proof.
  intros Hin Ht Hs Hsize Hsmall token conn'. unfold parse_query.
  rewrite (conn_read_app 8 token_bytes _ conn Hin Ht).
  rewrite (conn_read_app 4 size_bytes (payload ++ rest)) by done.
  cbn [conn_output]. rewrite Hsize.
  rewrite (proj2 (Z.leb_gt _ _)) by lia.
  rewrite Nat2Z.id.
  rewrite (conn_read_app (length payload) payload rest) by done.
  cbn [conn_output]. rewrite query_data. fold token conn'.
  by destruct (parse_query_from_buffer _ _ _ _).
Qed.

Lemma parse_query_from_buffer_payload (payload : list char) query_cache token :
  parse_query_from_buffer (payload ++ [0]) 0 query_cache token =
    match json_parse (c_str payload) with
    | Some d => make_query_params token query_cache d
    | None => None
    end.
Proof.
  unfold parse_query_from_buffer. rewrite drop_0, c_str_terminated.
  destruct (json_parse _); [|done]. by destruct (make_query_params _ _ _).
Qed.

(** X17.  A header that announces [TOO_LARGE_QUERY_SIZE] bytes or more
    is refused without reading the query: [parse_query] sends one error
    frame, under the token of the query, whose message names the
    announced size and the largest size that is accepted, and throws
    [tcp_conn_read_closed_exc_t]; the bytes after the header are left in
    the connection. *)
Theorem parse_query_rejects_large fuel query_cache conn
    (token_bytes size_bytes rest : list char) response' buffer' :
  conn_input conn = token_bytes ++ size_bytes ++ rest ->
  length token_bytes = 8%nat -> length size_bytes = 4%nat ->
  TOO_LARGE_QUERY_SIZE <= load_uint32 size_bytes ->
  let error :=
    fill_error default_response CLIENT_ERROR RESOURCE_LIMIT
      ("Query size (" +:+ pretty (load_uint32 size_bytes)
       +:+ ") greater than maximum ("
       +:+ pretty ((TOO_LARGE_QUERY_SIZE - 1) `mod` 2 ^ 32) +:+ ").") in
  write_response_to_buffer fuel error (buffer_push 12 [])
    = Wrote response' buffer' ->
  let body := render (try_block response').1 in
  (0 < length body)%nat ->
  Z.of_nat (length body) < TOO_LARGE_RESPONSE_SIZE ->
  parse_query fuel query_cache conn =
    Thrown tcp_conn_read_closed_exc_t
      {| conn_input := rest;
         conn_output :=
           conn_output conn ++ [frame (load_int64 token_bytes) body] |}.
Proof.
  intros Hin Ht Hs Hlarge error Hw body Hpos Hsmall. unfold parse_query.
  rewrite (conn_read_app 8 token_bytes _ conn Hin Ht).
  rewrite (conn_read_app 4 size_bytes rest) by done.
  cbn [conn_output]. rewrite (proj2 (Z.leb_le _ _)) by done.
  change (fill_error default_response CLIENT_ERROR RESOURCE_LIMIT
            (too_large_query_message (load_uint32 size_bytes))) with error.
  by rewrite (send_response_run _ _ _ _ _ _ Hw Hpos Hsmall).
Qed.

(** X18.  A whole query below the limit: [parse_query] consumes the
    twelve bytes of the header and exactly as many bytes as the header
    announces, hands the parser the payload up to its first zero byte,
    and, when the query parses, returns it under the token of the header
    and writes nothing. *)
Theorem parse_query_accepts fuel query_cache conn
    (token_bytes size_bytes payload rest : list char) d res :
  conn_input conn = token_bytes ++ size_bytes ++ payload ++ rest ->
  length token_bytes = 8%nat -> length size_bytes = 4%nat ->
  load_uint32 size_bytes = Z.of_nat (length payload) ->
  Z.of_nat (length payload) < TOO_LARGE_QUERY_SIZE ->
  json_parse (c_str payload) = Some d ->
  make_query_params (load_int64 token_bytes) query_cache d = Some res ->
  parse_query fuel query_cache conn =
    Returned (Some res)
      {| conn_input := rest; conn_output := conn_output conn |}.
Proof.
  intros Hin Ht Hs Hsize Hsmall Hparse Hmake.
  rewrite (parse_query_read _ _ _ _ _ _ _ Hin Ht Hs Hsize Hsmall).
  by rewrite parse_query_from_buffer_payload, Hparse, Hmake.
Qed.

(** X19.  A whole query below the limit that does not parse, or whose
    [query_params_t] cannot be built: [parse_query] does not throw; it
    sends one error frame with the fixed message, under the token of the
    query, and returns null; the query is consumed and what follows it is
    left in the connection. *)
Theorem parse_query_unparseable fuel query_cache conn
    (token_bytes size_bytes payload rest : list char) response' buffer' :
  conn_input conn = token_bytes ++ size_bytes ++ payload ++ rest ->
  length token_bytes = 8%nat -> length size_bytes = 4%nat ->
  load_uint32 size_bytes = Z.of_nat (length payload) ->
  Z.of_nat (length payload) < TOO_LARGE_QUERY_SIZE ->
  json_parse (c_str payload) = None \/
  (exists d, json_parse (c_str payload) = Some d /\
             make_query_params (load_int64 token_bytes) query_cache d
               = None) ->
  let error :=
    fill_error default_response CLIENT_ERROR RESOURCE_LIMIT
      "Client is buggy (failed to deserialize query)." in
  write_response_to_buffer fuel error (buffer_push 12 [])
    = Wrote response' buffer' ->
  let body := render (try_block response').1 in
  (0 < length body)%nat ->
  Z.of_nat (length body) < TOO_LARGE_RESPONSE_SIZE ->
  parse_query fuel query_cache conn =
    Returned None
      {| conn_input := rest;
         conn_output :=
           conn_output conn ++ [frame (load_int64 token_bytes) body] |}.
Proof.
  intros Hin Ht Hs Hsize Hsmall Hbad error Hw body Hpos Hsmall'.
  rewrite (parse_query_read _ _ _ _ _ _ _ Hin Ht Hs Hsize Hsmall).
  rewrite parse_query_from_buffer_payload.
  assert (Hnone : match json_parse (c_str payload) with
                  | Some d => make_query_params (load_int64 token_bytes)
                                query_cache d
                  | None => None
                  end = None).
  { destruct Hbad as [->|(d & -> & ->)]; done. }
  rewrite Hnone.
  change (fill_error default_response CLIENT_ERROR RESOURCE_LIMIT
            unparseable_query_message) with error.
  by rewrite (send_response_run _ _ _ _ _ _ Hw Hpos Hsmall').
Qed.

(** X20.  A connection that closes too early: when fewer than twelve
    bytes arrive, or a header below the limit followed by fewer bytes
    than it announces, [parse_query] throws [tcp_conn_read_closed_exc_t]
    and writes nothing. *)
Theorem parse_query_short_input fuel query_cache conn :
  (length (conn_input conn) < 12)%nat \/
  (exists token_bytes size_bytes rest,
     conn_input conn = token_bytes ++ size_bytes ++ rest /\
     length token_bytes = 8%nat /\ length size_bytes = 4%nat /\
     load_uint32 size_bytes < TOO_LARGE_QUERY_SIZE /\
     Z.of_nat (length rest) < load_uint32 size_bytes) ->
  parse_query fuel query_cache conn =
    Thrown tcp_conn_read_closed_exc_t
      {| conn_input := []; conn_output := conn_output conn |}.
Proof.
  intros [Hshort|(tb & sb & rest & Hin & Ht & Hs & Hsmall & Hrest)];
    unfold parse_query.
  - destruct (decide (length (conn_input conn) < 8)%nat) as [H8|H8].
    { by rewrite conn_read_short. }
    unfold conn_read at 1. rewrite decide_True by lia.
    rewrite conn_read_short; [done|]. simpl. rewrite length_drop. lia.
  - rewrite (conn_read_app 8 tb _ conn Hin Ht).
    rewrite (conn_read_app 4 sb rest) by done.
    cbn [conn_output]. rewrite (proj2 (Z.leb_gt _ _)) by lia.
    rewrite conn_read_short; [done|]. simpl. lia.
Qed.


End JsonShimProofs.

(** ** The wire protocol on the demo environment *)

Import DemoShim.

Lemma write_response_all_or_nothing_witness :
  let w := write_response_internal 3 resp_base_exc [1; 2] false in
  write_response_internal 3 resp_base_exc [1; 2] false
    = Wrote (wrote_response w) (wrote_buffer w) /\
  (try_block (wrote_response w)).2 = None /\
  wrote_buffer w = [1; 2] ++ render (try_block (wrote_response w)).1 /\
  write_response_internal 3 (wrote_response w) [1; 2] false
    = Wrote (wrote_response w) (wrote_buffer w).
Proof.
  cbv zeta.
  assert (H : write_response_internal 3 resp_base_exc [1; 2] false
              = Wrote (wrote_response
                         (write_response_internal 3 resp_base_exc [1; 2] false))
                      (wrote_buffer
                         (write_response_internal 3 resp_base_exc [1; 2] false)))
    by (vm_compute; reflexivity).
  split; [exact H|].
  exact (write_response_all_or_nothing 3 resp_base_exc [1; 2] false _ _ H).
Defined.

Lemma write_response_base_exc_rolls_back_witness :
  (try_block resp_base_exc).2 = Some (base_exc_t "boom") /\
  (try_block (fill_error3 resp_base_exc RUNTIME_ERROR "boom")).2 = None /\
  write_response_internal 1 resp_base_exc [1; 2] false =
    Wrote (fill_error3 resp_base_exc RUNTIME_ERROR "boom")
      ([1; 2]
       ++ render (try_block (fill_error3 resp_base_exc RUNTIME_ERROR "boom")).1)
  /\
  write_response_to_buffer 1 resp_base_exc [1; 2] =
    Wrote (fill_error3 resp_base_exc RUNTIME_ERROR "boom")
      ([1; 2]
       ++ render (try_block (fill_error3 resp_base_exc RUNTIME_ERROR "boom")).1).
Proof.
  split; [reflexivity|]. split; [reflexivity|].
  exact (write_response_base_exc_rolls_back 0 resp_base_exc [1; 2] false
           "boom" eq_refl eq_refl).
Defined.

Lemma write_response_std_exception_witness :
  (try_block resp_std_exc).2 = Some (std_exception "bad_alloc") /\
  let error :=
    fill_error resp_std_exc RUNTIME_ERROR INTERNAL
      ("Internal error in json_protocol_t::write: " +:+ "bad_alloc") in
  (try_block error).2 = None /\
  write_response_internal 1 resp_std_exc [1; 2] true
    = WriteThrown (std_exception "bad_alloc") /\
  write_response_internal 1 resp_std_exc [1; 2] false
    = Wrote error ([1; 2] ++ render (try_block error).1) /\
  write_response_to_buffer 1 resp_std_exc [1; 2] =
    if NDEBUG then Wrote error ([1; 2] ++ render (try_block error).1)
    else WriteThrown (std_exception "bad_alloc").
Proof.
  split; [reflexivity|]. cbv zeta. split; [reflexivity|].
  exact (write_response_std_exception 0 resp_std_exc [1; 2] "bad_alloc"
           eq_refl eq_refl).
Defined.

Lemma send_response_frame_witness :
  let w := write_response_to_buffer 3 resp_ok (buffer_push 12 []) in
  write_response_to_buffer 3 resp_ok (buffer_push 12 [])
    = Wrote (wrote_response w) (wrote_buffer w) /\
  let body := render (try_block (wrote_response w)).1 in
  (0 < length body)%nat /\
  Z.of_nat (length body) < TOO_LARGE_RESPONSE_SIZE /\
  send_response 3 resp_ok (-2) conn_query =
    Returned (wrote_response w)
      {| conn_input := conn_input conn_query;
         conn_output := conn_output conn_query ++ [frame (-2) body] |} /\
  length (frame (-2) body) = (12 + length body)%nat /\
  take 8 (frame (-2) body) = map (repr_int64 (-2)) (seq 0 8) /\
  drop 12 (frame (-2) body) = body.
Proof.
  cbv zeta.
  set (w := write_response_to_buffer 3 resp_ok (buffer_push 12 [])).
  assert (H : w = Wrote (wrote_response w) (wrote_buffer w))
    by (vm_compute; reflexivity).
  assert (Hpos : (0 < length (render (try_block (wrote_response w)).1))%nat)
    by (vm_compute; lia).
  assert (Hsmall : Z.of_nat (length (render (try_block (wrote_response w)).1))
                   < TOO_LARGE_RESPONSE_SIZE)
    by (vm_compute; reflexivity).
  split; [exact H|]. split; [exact Hpos|]. split; [exact Hsmall|].
  exact (send_response_frame 3 resp_ok (-2) conn_query _ _ H Hpos Hsmall).
Defined.

Lemma parse_query_rejects_large_witness :
  let token_bytes := map (le_byte 5) (seq 0 8) in
  let size_bytes := map (le_byte 67108864) (seq 0 4) in
  let error := error_too_large (load_uint32 size_bytes) in
  let w := write_response_to_buffer 3 error (buffer_push 12 []) in
  let body := render (try_block (wrote_response w)).1 in
  conn_input conn_huge = token_bytes ++ size_bytes ++ [91; 93] /\
  length token_bytes = 8%nat /\ length size_bytes = 4%nat /\
  TOO_LARGE_QUERY_SIZE <= load_uint32 size_bytes /\
  w = Wrote (wrote_response w) (wrote_buffer w) /\
  (0 < length body)%nat /\
  Z.of_nat (length body) < TOO_LARGE_RESPONSE_SIZE /\
  parse_query 3 0%N conn_huge =
    Thrown tcp_conn_read_closed_exc_t
      {| conn_input := [91; 93];
         conn_output :=
           conn_output conn_huge ++ [frame (load_int64 token_bytes) body] |}.
Proof.
  cbv zeta.
  set (token_bytes := map (le_byte 5) (seq 0 8)).
  set (size_bytes := map (le_byte 67108864) (seq 0 4)).
  set (w := write_response_to_buffer 3
              (error_too_large (load_uint32 size_bytes)) (buffer_push 12 [])).
  assert (Hin : conn_input conn_huge = token_bytes ++ size_bytes ++ [91; 93])
    by reflexivity.
  assert (Ht : length token_bytes = 8%nat) by reflexivity.
  assert (Hs : length size_bytes = 4%nat) by reflexivity.
  assert (Hl : TOO_LARGE_QUERY_SIZE <= load_uint32 size_bytes)
    by (vm_compute; discriminate).
  assert (H : w = Wrote (wrote_response w) (wrote_buffer w))
    by (vm_compute; reflexivity).
  assert (Hpos : (0 < length (render (try_block (wrote_response w)).1))%nat)
    by (vm_compute; lia).
  assert (Hsmall : Z.of_nat (length (render (try_block (wrote_response w)).1))
                   < TOO_LARGE_RESPONSE_SIZE)
    by (vm_compute; reflexivity).
  repeat (split; [assumption|]).
  exact (parse_query_rejects_large 3 0%N conn_huge token_bytes size_bytes
           [91; 93] _ _ Hin Ht Hs Hl H Hpos Hsmall).
Defined.

Lemma parse_query_accepts_witness :
  let token_bytes := map (le_byte (-2)) (seq 0 8) in
  let size_bytes := map (le_byte 3) (seq 0 4) in
  conn_input conn_query = token_bytes ++ size_bytes ++ [91; 49; 93] ++ [1; 2] /\
  length token_bytes = 8%nat /\ length size_bytes = 4%nat /\
  load_uint32 size_bytes = Z.of_nat (length [91; 49; 93]) /\
  Z.of_nat (length [91; 49; 93]) < TOO_LARGE_QUERY_SIZE /\
  json_parse (c_str [91; 49; 93]) = Some [91; 49; 93] /\
  make_query_params (load_int64 token_bytes) 0%N [91; 49; 93]
    = Some (-2, [91; 49; 93]) /\
  parse_query 3 0%N conn_query =
    Returned (Some (-2, [91; 49; 93]))
      {| conn_input := [1; 2]; conn_output := conn_output conn_query |}.
Proof.
  cbv zeta.
  repeat (split; [reflexivity|]).
  exact (parse_query_accepts 3 0%N conn_query
           (map (le_byte (-2)) (seq 0 8)) (map (le_byte 3) (seq 0 4))
           [91; 49; 93] [1; 2] [91; 49; 93] (-2, [91; 49; 93])
           eq_refl eq_refl eq_refl eq_refl eq_refl eq_refl eq_refl).
Defined.

Lemma parse_query_unparseable_witness :
  let token_bytes := map (le_byte 77) (seq 0 8) in
  let size_bytes := map (le_byte 2) (seq 0 4) in
  let w := write_response_to_buffer 3 error_unparseable (buffer_push 12 []) in
  let body := render (try_block (wrote_response w)).1 in
  conn_input conn_garbage = token_bytes ++ size_bytes ++ [120; 121] ++ [] /\
  length token_bytes = 8%nat /\ length size_bytes = 4%nat /\
  load_uint32 size_bytes = Z.of_nat (length [120; 121]) /\
  Z.of_nat (length [120; 121]) < TOO_LARGE_QUERY_SIZE /\
  (json_parse (c_str [120; 121]) = None \/
   (exists d, json_parse (c_str [120; 121]) = Some d /\
              make_query_params (load_int64 token_bytes) 0%N d = None)) /\
  w = Wrote (wrote_response w) (wrote_buffer w) /\
  (0 < length body)%nat /\
  Z.of_nat (length body) < TOO_LARGE_RESPONSE_SIZE /\
  parse_query 3 0%N conn_garbage =
    Returned None
      {| conn_input := [];
         conn_output :=
           conn_output conn_garbage ++ [frame (load_int64 token_bytes) body] |}.
Proof.
  cbv zeta.
  set (token_bytes := map (le_byte 77) (seq 0 8)).
  set (size_bytes := map (le_byte 2) (seq 0 4)).
  set (w := write_response_to_buffer 3 error_unparseable (buffer_push 12 [])).
  assert (Hbad : json_parse (c_str [120; 121]) = None \/
    (exists d, json_parse (c_str [120; 121]) = Some d /\
               make_query_params (load_int64 token_bytes) 0%N d = None))
    by (left; reflexivity).
  assert (H : w = Wrote (wrote_response w) (wrote_buffer w))
    by (vm_compute; reflexivity).
  assert (Hpos : (0 < length (render (try_block (wrote_response w)).1))%nat)
    by (vm_compute; lia).
  assert (Hsmall : Z.of_nat (length (render (try_block (wrote_response w)).1))
                   < TOO_LARGE_RESPONSE_SIZE)
    by (vm_compute; reflexivity).
  repeat (split; [first [assumption|reflexivity]|]).
  exact (parse_query_unparseable 3 0%N conn_garbage token_bytes size_bytes
           [120; 121] [] _ _ eq_refl eq_refl eq_refl eq_refl eq_refl
           Hbad H Hpos Hsmall).
Defined.

Lemma parse_query_short_input_witness :
  ((length (conn_input conn_short) < 12)%nat \/
   (exists token_bytes size_bytes rest,
      conn_input conn_short = token_bytes ++ size_bytes ++ rest /\
      length token_bytes = 8%nat /\ length size_bytes = 4%nat /\
      load_uint32 size_bytes < TOO_LARGE_QUERY_SIZE /\
      Z.of_nat (length rest) < load_uint32 size_bytes)) /\
  parse_query 3 0%N conn_short =
    Thrown tcp_conn_read_closed_exc_t
      {| conn_input := []; conn_output := conn_output conn_short |}.
Proof.
  assert (H : (length (conn_input conn_short) < 12)%nat \/
   (exists token_bytes size_bytes rest,
      conn_input conn_short = token_bytes ++ size_bytes ++ rest /\
      length token_bytes = 8%nat /\ length size_bytes = 4%nat /\
      load_uint32 size_bytes < TOO_LARGE_QUERY_SIZE /\
      Z.of_nat (length rest) < load_uint32 size_bytes)).
  { right. exists (map (le_byte 5) (seq 0 8)), (map (le_byte 10) (seq 0 4)),
      [91; 49]. repeat split; reflexivity. }
  split; [exact H|].
  exact (parse_query_short_input 3 0%N conn_short H).
Defined.

